(** * Record validation for Civic Transparency types

    A shallow embedding of [validate/validate.go]: the [MultiError]
    aggregator, the two validators [ValidateProvenanceTag] and
    [ValidateSeries], their [Must...] wrappers and the helper
    [validateISO3166MaybeEmpty].

    Go values are modelled as follows.
    - [string] is a byte string (Rocq's [string]); the two non-ASCII runes of
      the messages are kept as their UTF-8 bytes.
    - [float64] is the kernel's binary64 type [float]; [<] and [>] are
      [PrimFloat.ltb], so NaN and signed zeros behave as in Go.
    - [int] fields are [Z]; they are only compared with [0].
    - A pointer is [nilptr] or the address of a live object; the heap is a
      total map from addresses to objects, since Go has no dangling pointers.
    - A call either returns or panics ([outcome]); a panic carries a runtime
      error or the value given to [panic]. *)

From Stdlib Require Import ZArith List String Ascii Bool Floats Lia.
From Stdlib Require Import Decimal DecimalString DecimalNat.
From Stdlib Require DecimalFacts.
Import ListNotations.

Set Warnings "-inexact-float,-register-all".
Local Open Scope list_scope.
Local Open Scope string_scope.

(** ** The [error] interface and panics *)

(** The dynamic values an [error] can hold in this package: the string errors
    built by [errors.New] and [fmt.Errorf], and a [*MultiError], represented
    by the slice it holds. The representation is by value: an aggregator that
    records itself, directly or through another one, has no counterpart
    here. *)
Inductive error_value : Type :=
| errorString (s : string)
| multiError (errs : list (option error_value)).

(** An interface value of type [error]; [None] is [nil]. *)
Definition error : Type := option error_value.

Inductive panic : Type :=
| nilDereference
| panicValue (v : error_value).

Inductive outcome (A : Type) : Type :=
| Returns (a : A)
| Panics (p : panic).

Arguments Returns {A} a.
Arguments Panics {A} p.

(** ** Pointers and the heap *)

Definition loc : Type := nat.

Inductive ptr : Type :=
| nilptr
| addr (l : loc).

Definition heap (R : Type) : Type := loc -> R.

(** ** Computations of a validator call

    The state of a call is the heap holding the caller's records together
    with the call's local aggregator [me]. *)

Record MultiError : Type := { errs : list error }.

Record frame (R : Type) : Type := { mem : heap R; me : MultiError }.

Arguments mem {R} f.
Arguments me {R} f.

Definition M (R A : Type) : Type := frame R -> outcome (A * frame R).

Definition ret {R A : Type} (a : A) : M R A := fun st => Returns (a, st).

Definition bind {R A B : Type} (c : M R A) (k : A -> M R B) : M R B :=
  fun st =>
    match c st with
    | Returns (a, st') => k a st'
    | Panics p => Panics p
    end.

Declare Scope go_scope.
Delimit Scope go_scope with go.
Notation "x <- c ;; k" := (bind c (fun x => k))
  (at level 61, c at next level, right associativity) : go_scope.
Notation "c ;; k" := (bind c (fun _ => k))
  (at level 61, right associativity) : go_scope.
Local Open Scope go_scope.

Definition skip {R : Type} : M R unit := ret tt.

(** [t.f]: the field [f] of the record [t] points to; a nil [t] faults. *)
Definition load {R A : Type} (t : ptr) (f : R -> A) : M R A :=
  fun st =>
    match t with
    | nilptr => Panics nilDereference
    | addr l => Returns (f (mem st l), st)
    end.

(** The zero value of [var me MultiError]. *)
Definition zero_MultiError : MultiError := {| errs := [] |}.

(** A call runs its body on the caller's heap with a fresh aggregator and
    hands back the result and the heap. *)
Definition call {R A : Type} (body : M R A) (h : heap R) : outcome (A * heap R) :=
  match body {| mem := h; me := zero_MultiError |} with
  | Returns (a, st) => Returns (a, mem st)
  | Panics p => Panics p
  end.

(** ** Library functions used by the package *)

(** The one-byte string holding a double quote. *)
Definition dquote : string := String "034"%char EmptyString.

Module strconv.

(** Decimal rendering of a non-negative [int]. *)
Definition Itoa (i : nat) : string := NilZero.string_of_uint (Nat.to_uint i).

End strconv.

Module fmt.

(** [fmt.Sprintf] restricted to the verb [%d] with [int] operands. *)
Fixpoint Sprintf (format : string) (args : list nat) : string :=
  match format with
  | EmptyString => EmptyString
  | String c rest =>
      match rest with
      | String d rest' =>
          if (Ascii.eqb c "%" && Ascii.eqb d "d")%bool then
            match args with
            | a :: args' => strconv.Itoa a ++ Sprintf rest' args'
            | [] => "%!d(MISSING)" ++ Sprintf rest' []
            end
          else String c (Sprintf rest args)
      | EmptyString => String c EmptyString
      end
  end.

(** [fmt.Errorf] without [%w]: a string error holding the formatted text. *)
Definition Errorf (format : string) (args : list nat) : error :=
  Some (errorString (Sprintf format args)).

End fmt.

Module errors.

Definition New (text : string) : error := Some (errorString text).

(** The dynamic value [errors.Join] returns, a [*joinError]: the errors it
    wraps, which [Unwrap() []error] hands out. *)
Record joinError : Type := { wrapped : list error }.

Definition not_nil (err : error) : bool :=
  match err with
  | Some _ => true
  | None => false
  end.

(** [errors.Join(errs...)]: nil values are discarded; the result is nil when
    every value is nil. *)
Definition Join (errs : list error) : option joinError :=
  let n := List.length (filter not_nil errs) in
  if (n =? 0)%nat then None
  else Some {| wrapped := filter not_nil errs |}.

End errors.

Module regexp.

(** A compiled pattern, seen through [MatchString]. *)
Definition Regexp : Type := string -> bool.

Definition MatchString (re : Regexp) (s : string) : bool := re s.

End regexp.

Module time.

(** A time instant: seconds since January 1, year 1, 00:00:00 UTC and the
    nanoseconds within that second. *)
Record Time : Type := { sec : Z; nsec : Z }.

Definition IsZero (t : Time) : bool := ((sec t =? 0) && (nsec t =? 0))%Z.

End time.

(** ** The [types] package

    The record schema is an external collaborator of the validators. *)

Module types.

Record CoordinationSignalsT : Type := {
  BurstScore : float;
  SynchronyIndex : float;
  DuplicationClusters : Z
}.

Record Point : Type := {
  Volume : Z;
  ReshareRatio : float;
  RecycledContentRate : float;
  CoordinationSignals : CoordinationSignalsT
}.

Record Series : Type := {
  Topic : string;
  GeneratedAt : time.Time;
  Interval : string;
  Points : list Point
}.

Record ProvenanceTag : Type := {
  AcctAgeBucket : string;
  AcctType : string;
  AutomationFlag : string;
  PostKind : string;
  ClientFamily : string;
  MediaProvenance : string;
  DedupHash : string;
  OriginHint : string
}.

(** The named constants of the six enumerations and the country-code
    pattern, whose values the validators do not fix. *)
Class Constants : Type := {
  AcctAge_0_7d : string;
  AcctAge_8_30d : string;
  AcctAge_1_6m : string;
  AcctAge_6_24m : string;
  AcctAge_24mPlus : string;
  AcctTypePerson : string;
  AcctTypeOrg : string;
  AcctTypeMedia : string;
  AcctTypePublicOfficial : string;
  AcctTypeUnverified : string;
  AcctTypeDeclaredAutomation : string;
  AutomationManual : string;
  AutomationScheduled : string;
  AutomationAPICLIENT : string;
  AutomationDeclaredBot : string;
  PostKindOriginal : string;
  PostKindReshare : string;
  PostKindQuote : string;
  PostKindReply : string;
  ClientWeb : string;
  ClientMobile : string;
  ClientThirdParty : string;
  MediaProvC2PA : string;
  MediaProvHash : string;
  MediaProvNone : string;
  ReISO3166 : regexp.Regexp
}.

(** Modelled from the spec: the constant [IntervalMinute] is declared in the
    schema package; the spec fixes the single permitted interval as
    "minute". *)
Definition IntervalMinute : string := "minute".

Definition is_lower_hex (c : ascii) : bool :=
  let n := nat_of_ascii c in
  ((48 <=? n) && (n <=? 57) || (97 <=? n) && (n <=? 102))%nat.

Fixpoint all_chars (p : ascii -> bool) (s : string) : bool :=
  match s with
  | EmptyString => true
  | String c s' => p c && all_chars p s'
  end.

(** Modelled from the spec: the pattern [ReHex8] is compiled in the schema
    package; the spec gives it as [^[0-9a-f]{8}$], which in Go's syntax
    matches exactly the strings of eight bytes, each a digit or a letter
    from a to f. *)
Definition ReHex8 : regexp.Regexp :=
  fun s => ((String.length s =? 8)%nat && all_chars is_lower_hex s)%bool.

End types.

Import types.

(** ** The aggregator *)

Definition Append (err : error) (m : MultiError) : MultiError :=
  match err with
  | Some _ => {| errs := errs m ++ [err] |}
  | None => m
  end.

(** [strings.Builder], by the text written so far. *)
Definition Builder : Type := string.

Definition WriteString (s : string) (b : Builder) : Builder := b ++ s.

Section ErrorLoop.

(** The method [Error] of the element's dynamic type. *)
Variable Error_of : error_value -> outcome string.

(** [for i, e := range m.errs] of [Error], from index [i] on. *)
Fixpoint Error_range (es : list error) (i : nat) (b : Builder) : outcome string :=
  match es with
  | [] => Returns b
  | e :: es' =>
      let b := if (0 <? i)%nat then WriteString "; " b else b in
      match e with
      | None => Panics nilDereference
      | Some v =>
          match Error_of v with
          | Returns s => Error_range es' (S i) (WriteString s b)
          | Panics p => Panics p
          end
      end
  end.

End ErrorLoop.

(** [e.Error()] for a non-nil [e]; the second case is
    [(m *MultiError) Error]. *)
Fixpoint Error_value (e : error_value) : outcome string :=
  match e with
  | errorString s => Returns s
  | multiError es =>
      if (List.length es =? 0)%nat then Returns EmptyString
      else Error_range Error_value es 0 EmptyString
  end.

Definition Error (m : MultiError) : outcome string := Error_value (multiError (errs m)).

(** The aggregator as an [error]: the interface value holding [m]. *)
Definition as_error (m : MultiError) : error := Some (multiError (errs m)).

Definition NilOrError (m : MultiError) : error :=
  if (List.length (errs m) =? 0)%nat then None else as_error m.

(** [Unwrap]: the recorded errors as one joined error; the interface value
    it returns can only hold a [*joinError]. *)
Definition Unwrap (m : MultiError) : option errors.joinError :=
  if (List.length (errs m) =? 0)%nat then None else errors.Join (errs m).

(** The same two methods on the local aggregator of a call. *)
Definition me_Append {R : Type} (err : error) : M R unit :=
  fun st => Returns (tt, {| mem := mem st; me := Append err (me st) |}).

Definition me_NilOrError {R : Type} : M R error :=
  fun st => Returns (NilOrError (me st), st).

(** ** The validators *)

(** [switch x { case c1, ..., cn: default: d }] *)
Definition switch_default {R : Type} (x : string) (cases : list string) (d : M R unit) : M R unit :=
  if existsb (String.eqb x) cases then skip else d.

Section Validators.

Context {K : Constants}.

Definition validateISO3166MaybeEmpty (code : string) : error :=
  if String.eqb code EmptyString then None
  else if negb (regexp.MatchString ReISO3166 code) then
    fmt.Errorf "origin_hint/country must match ISO-3166 pattern (e.g., US or US-CA)" []
  else None.

Definition ValidateProvenanceTag (t : ptr) : heap ProvenanceTag -> outcome (error * heap ProvenanceTag) :=
  call (
    x <- load t AcctAgeBucket ;;
    switch_default x
      [AcctAge_0_7d; AcctAge_8_30d; AcctAge_1_6m; AcctAge_6_24m; AcctAge_24mPlus]
      (me_Append (errors.New "invalid acct_age_bucket")) ;;
    x <- load t AcctType ;;
    switch_default x
      [AcctTypePerson; AcctTypeOrg; AcctTypeMedia;
       AcctTypePublicOfficial; AcctTypeUnverified; AcctTypeDeclaredAutomation]
      (me_Append (errors.New "invalid acct_type")) ;;
    x <- load t AutomationFlag ;;
    switch_default x
      [AutomationManual; AutomationScheduled; AutomationAPICLIENT; AutomationDeclaredBot]
      (me_Append (errors.New "invalid automation_flag")) ;;
    x <- load t PostKind ;;
    switch_default x
      [PostKindOriginal; PostKindReshare; PostKindQuote; PostKindReply]
      (me_Append (errors.New "invalid post_kind")) ;;
    x <- load t ClientFamily ;;
    switch_default x
      [ClientWeb; ClientMobile; ClientThirdParty]
      (me_Append (errors.New "invalid client_family")) ;;
    x <- load t MediaProvenance ;;
    switch_default x
      [MediaProvC2PA; MediaProvHash; MediaProvNone]
      (me_Append (errors.New "invalid media_provenance")) ;;
    x <- load t DedupHash ;;
    (if negb (regexp.MatchString ReHex8 x)
     then me_Append (errors.New "dedup_hash must be 8 lowercase hex chars")
     else skip) ;;
    x <- load t OriginHint ;;
    (let err := validateISO3166MaybeEmpty x in
     match err with
     | Some _ => me_Append err
     | None => skip
     end) ;;
    me_NilOrError).

Definition MustProvenanceTag (t : ptr) (h : heap ProvenanceTag) : outcome (unit * heap ProvenanceTag) :=
  match ValidateProvenanceTag t h with
  | Returns (Some err, _) => Panics (panicValue err)
  | Returns (None, h') => Returns (tt, h')
  | Panics p => Panics p
  end.

End Validators.

(** The body of [for i, p := range s.Points], for one element. *)
Definition check_point {R : Type} (i : nat) (p : Point) : M R unit :=
  (if (Volume p <? 0)%Z
   then me_Append (fmt.Errorf "points[%d].volume must be ≥0" [i])
   else skip) ;;
  (if (ReshareRatio p <? 0)%float || (1 <? ReshareRatio p)%float
   then me_Append (fmt.Errorf "points[%d].reshare_ratio must be 0–1" [i])
   else skip) ;;
  (if (RecycledContentRate p <? 0)%float || (1 <? RecycledContentRate p)%float
   then me_Append (fmt.Errorf "points[%d].recycled_content_rate must be 0–1" [i])
   else skip) ;;
  (if (BurstScore (CoordinationSignals p) <? 0)%float
      || (1 <? BurstScore (CoordinationSignals p))%float
   then me_Append (fmt.Errorf "points[%d].coordination_signals.burst_score must be 0–1" [i])
   else skip) ;;
  (if (SynchronyIndex (CoordinationSignals p) <? 0)%float
      || (1 <? SynchronyIndex (CoordinationSignals p))%float
   then me_Append (fmt.Errorf "points[%d].coordination_signals.synchrony_index must be 0–1" [i])
   else skip) ;;
  (if (DuplicationClusters (CoordinationSignals p) <? 0)%Z
   then me_Append (fmt.Errorf "points[%d].coordination_signals.duplication_clusters must be ≥0" [i])
   else skip).

(** [for i, p := range ps], counting from [i]. *)
Fixpoint range_Points {R : Type} (i : nat) (ps : list Point) : M R unit :=
  match ps with
  | [] => skip
  | p :: ps' => check_point i p ;; range_Points (S i) ps'
  end.

Definition ValidateSeries (s : ptr) : heap Series -> outcome (error * heap Series) :=
  call (
    x <- load s Topic ;;
    (if String.eqb x EmptyString
     then me_Append (errors.New "topic must be non-empty")
     else skip) ;;
    x <- load s GeneratedAt ;;
    (if time.IsZero x
     then me_Append (errors.New "generated_at must be set")
     else skip) ;;
    x <- load s Interval ;;
    (if negb (String.eqb x IntervalMinute)
     then me_Append (errors.New ("interval must be " ++ dquote ++ "minute" ++ dquote))
     else skip) ;;
    x <- load s Points ;;
    (if (List.length x =? 0)%nat
     then me_Append (errors.New "series must contain at least one point")
     else skip) ;;
    ps <- load s Points ;;
    range_Points 0 ps ;;
    me_NilOrError).

Definition MustSeries (s : ptr) (h : heap Series) : outcome (unit * heap Series) :=
  match ValidateSeries s h with
  | Returns (Some err, _) => Panics (panicValue err)
  | Returns (None, h') => Returns (tt, h')
  | Panics p => Panics p
  end.


(** ** The failures of a record, as the specification lists them

    A check is a pair of "is violated" and the description reported for it;
    the violations of a list of checks are the descriptions of the violated
    ones, in the order of the list. *)

Definition check : Type := (bool * string)%type.

Definition violations (cs : list check) : list string := map snd (filter fst cs).

Definition one_of (x : string) (names : list string) : bool :=
  existsb (String.eqb x) names.

(** [0 <= x <= 1] on [float64]. *)
Definition in_unit_interval (x : float) : bool := ((0 <=? x) && (x <=? 1))%float.

(** The source's test [x < 0 || x > 1]. *)
Definition outside_unit_interval (x : float) : bool := ((x <? 0) || (1 <? x))%float.

Section TagChecks.

Context {K : Constants}.

Definition acct_age_buckets : list string :=
  [AcctAge_0_7d; AcctAge_8_30d; AcctAge_1_6m; AcctAge_6_24m; AcctAge_24mPlus].

Definition acct_types : list string :=
  [AcctTypePerson; AcctTypeOrg; AcctTypeMedia;
   AcctTypePublicOfficial; AcctTypeUnverified; AcctTypeDeclaredAutomation].

Definition automation_flags : list string :=
  [AutomationManual; AutomationScheduled; AutomationAPICLIENT; AutomationDeclaredBot].

Definition post_kinds : list string :=
  [PostKindOriginal; PostKindReshare; PostKindQuote; PostKindReply].

Definition client_families : list string := [ClientWeb; ClientMobile; ClientThirdParty].

Definition media_provenances : list string := [MediaProvC2PA; MediaProvHash; MediaProvNone].

(** The origin hint is acceptable when empty or matching the country-code
    pattern. *)
Definition origin_hint_ok (code : string) : bool :=
  String.eqb code EmptyString || regexp.MatchString ReISO3166 code.

(** The eight checks of a provenance tag: the six enumerations in the order
    of declaration, the dedup hash, the origin hint. *)
Definition tag_checks (t : ProvenanceTag) : list check :=
  [ (negb (one_of (AcctAgeBucket t) acct_age_buckets), "invalid acct_age_bucket");
    (negb (one_of (AcctType t) acct_types), "invalid acct_type");
    (negb (one_of (AutomationFlag t) automation_flags), "invalid automation_flag");
    (negb (one_of (PostKind t) post_kinds), "invalid post_kind");
    (negb (one_of (ClientFamily t) client_families), "invalid client_family");
    (negb (one_of (MediaProvenance t) media_provenances), "invalid media_provenance");
    (negb (regexp.MatchString ReHex8 (DedupHash t)), "dedup_hash must be 8 lowercase hex chars");
    (negb (origin_hint_ok (OriginHint t)),
     "origin_hint/country must match ISO-3166 pattern (e.g., US or US-CA)") ].

End TagChecks.

(** The four checks on the series itself. *)
Definition entity_checks (s : Series) : list check :=
  [ (String.eqb (Topic s) EmptyString, "topic must be non-empty");
    (time.IsZero (GeneratedAt s), "generated_at must be set");
    (negb (String.eqb (Interval s) "minute"),
     "interval must be " ++ dquote ++ "minute" ++ dquote);
    (match Points s with [] => true | _ :: _ => false end,
     "series must contain at least one point") ].

(** The description of a check of the point at index [i]: the prefix with the
    index, then the text [rest] that names the field. *)
Definition point_msg (i : nat) (rest : string) : string :=
  "points[" ++ strconv.Itoa i ++ rest.

(** The descriptions of the six checks of the point at index [i]. *)
Definition volume_msg (i : nat) : string :=
  point_msg i "].volume must be ≥0".
Definition reshare_ratio_msg (i : nat) : string :=
  point_msg i "].reshare_ratio must be 0–1".
Definition recycled_content_rate_msg (i : nat) : string :=
  point_msg i "].recycled_content_rate must be 0–1".
Definition burst_score_msg (i : nat) : string :=
  point_msg i "].coordination_signals.burst_score must be 0–1".
Definition synchrony_index_msg (i : nat) : string :=
  point_msg i "].coordination_signals.synchrony_index must be 0–1".
Definition duplication_clusters_msg (i : nat) : string :=
  point_msg i "].coordination_signals.duplication_clusters must be ≥0".

Definition point_checks (i : nat) (p : Point) : list check :=
  [ ((Volume p <? 0)%Z, volume_msg i);
    (outside_unit_interval (ReshareRatio p), reshare_ratio_msg i);
    (outside_unit_interval (RecycledContentRate p), recycled_content_rate_msg i);
    (outside_unit_interval (BurstScore (CoordinationSignals p)), burst_score_msg i);
    (outside_unit_interval (SynchronyIndex (CoordinationSignals p)), synchrony_index_msg i);
    ((DuplicationClusters (CoordinationSignals p) <? 0)%Z, duplication_clusters_msg i) ].

(** The checks of the points [ps], the first of which has index [i]. *)
Fixpoint points_checks (i : nat) (ps : list Point) : list check :=
  match ps with
  | [] => []
  | p :: ps' => point_checks i p ++ points_checks (S i) ps'
  end.

Definition series_checks (s : Series) : list check :=
  entity_checks s ++ points_checks 0 (Points s).

(** A point that meets every listed invariant. *)
Definition point_ok (p : Point) : Prop :=
  (0 <= Volume p)%Z
  /\ in_unit_interval (ReshareRatio p) = true
  /\ in_unit_interval (RecycledContentRate p) = true
  /\ in_unit_interval (BurstScore (CoordinationSignals p)) = true
  /\ in_unit_interval (SynchronyIndex (CoordinationSignals p)) = true
  /\ (0 <= DuplicationClusters (CoordinationSignals p))%Z.

(** The failures an error carries: those of an aggregator, none for [nil]. *)
Definition recorded (e : error) : list error :=
  match e with
  | Some (multiError es) => es
  | Some (errorString _) => [e]
  | None => []
  end.

(** The message of an error, the empty text for [nil]. *)
Definition message (e : error) : outcome string :=
  match e with
  | Some v => Error_value v
  | None => Returns EmptyString
  end.

(** ** Sample data for evaluating the validators *)

Definition is_upper (c : ascii) : bool :=
  let n := nat_of_ascii c in ((65 <=? n) && (n <=? 90))%nat.

Definition is_upper_or_digit (c : ascii) : bool :=
  let n := nat_of_ascii c in
  ((65 <=? n) && (n <=? 90) || (48 <=? n) && (n <=? 57))%nat.

(** A country-code pattern: two capital letters, then optionally a dash and a
    subdivision of one to three capital letters or digits. *)
Definition sample_iso3166 : regexp.Regexp :=
  fun s =>
    match s with
    | String a (String b rest) =>
        is_upper a && is_upper b &&
        match rest with
        | EmptyString => true
        | String dash sub =>
            Ascii.eqb dash "-" && (1 <=? String.length sub)%nat
            && (String.length sub <=? 3)%nat && all_chars is_upper_or_digit sub
        end
    | _ => false
    end.

(** One assignment of the schema constants, for evaluating the validators on
    concrete records. *)
Definition sample_constants : Constants := {|
  AcctAge_0_7d := "0-7d";
  AcctAge_8_30d := "8-30d";
  AcctAge_1_6m := "1-6m";
  AcctAge_6_24m := "6-24m";
  AcctAge_24mPlus := "24m+";
  AcctTypePerson := "person";
  AcctTypeOrg := "org";
  AcctTypeMedia := "media";
  AcctTypePublicOfficial := "public_official";
  AcctTypeUnverified := "unverified";
  AcctTypeDeclaredAutomation := "declared_automation";
  AutomationManual := "manual";
  AutomationScheduled := "scheduled";
  AutomationAPICLIENT := "api_client";
  AutomationDeclaredBot := "declared_bot";
  PostKindOriginal := "original";
  PostKindReshare := "reshare";
  PostKindQuote := "quote";
  PostKindReply := "reply";
  ClientWeb := "web";
  ClientMobile := "mobile";
  ClientThirdParty := "third_party";
  MediaProvC2PA := "c2pa";
  MediaProvHash := "hash";
  MediaProvNone := "none";
  ReISO3166 := sample_iso3166
|}.

Definition sample_tag : ProvenanceTag := {|
  AcctAgeBucket := "1-6m";
  AcctType := "person";
  AutomationFlag := "manual";
  PostKind := "original";
  ClientFamily := "web";
  MediaProvenance := "none";
  DedupHash := "0a1b2c3d";
  OriginHint := "US-CA"
|}.

Definition sample_signals : CoordinationSignalsT :=
  {| BurstScore := 0.25; SynchronyIndex := 1; DuplicationClusters := 2 |}.

Definition sample_point : Point := {|
  Volume := 10;
  ReshareRatio := 0;
  RecycledContentRate := 0.5;
  CoordinationSignals := sample_signals
|}.

Definition sample_time : time.Time := {| time.sec := 63900000000; time.nsec := 0 |}.

Definition sample_series : Series := {|
  Topic := "budget";
  GeneratedAt := sample_time;
  Interval := "minute";
  Points := [sample_point; sample_point]
|}.

Definition set_AcctType (x : string) (t : ProvenanceTag) : ProvenanceTag := {|
  AcctAgeBucket := AcctAgeBucket t;
  AcctType := x;
  AutomationFlag := AutomationFlag t;
  PostKind := PostKind t;
  ClientFamily := ClientFamily t;
  MediaProvenance := MediaProvenance t;
  DedupHash := DedupHash t;
  OriginHint := OriginHint t
|}.

Definition set_DedupHash (x : string) (t : ProvenanceTag) : ProvenanceTag := {|
  AcctAgeBucket := AcctAgeBucket t;
  AcctType := AcctType t;
  AutomationFlag := AutomationFlag t;
  PostKind := PostKind t;
  ClientFamily := ClientFamily t;
  MediaProvenance := MediaProvenance t;
  DedupHash := x;
  OriginHint := OriginHint t
|}.

Definition empty_series : Series := {|
  Topic := "budget";
  GeneratedAt := sample_time;
  Interval := "minute";
  Points := []
|}.

Definition negative_volume_point : Point := {|
  Volume := -1;
  ReshareRatio := 0;
  RecycledContentRate := 1;
  CoordinationSignals := sample_signals
|}.

Definition hourly_series : Series := {|
  Topic := "budget";
  GeneratedAt := sample_time;
  Interval := "hour";
  Points := [negative_volume_point]
|}.

Definition nan_point : Point := {|
  Volume := 3;
  ReshareRatio := nan;
  RecycledContentRate := 0;
  CoordinationSignals := sample_signals
|}.

Definition nan_series : Series := {|
  Topic := "budget";
  GeneratedAt := sample_time;
  Interval := "minute";
  Points := [nan_point]
|}.

(** The heap whose every cell holds [r]. *)
Definition heap_of {R : Type} (r : R) : heap R := fun _ => r.

(** The heap that holds [r0] at address 0 and [r1] elsewhere. *)
Definition heap_pair {R : Type} (r0 r1 : R) : heap R :=
  fun l => match l with 0 => r0 | S _ => r1 end.

Definition longer_series : Series := {|
  Topic := "budget";
  GeneratedAt := sample_time;
  Interval := "minute";
  Points := [sample_point; sample_point; negative_volume_point; nan_point]
|}.

(** ** Notions used in the statements *)

(** [runs c g res]: on every state, [c] returns, leaves the heap as it is,
    appends to the aggregator one string error per element of [g h], where
    [h] is the heap, and yields [res] of the aggregator it leaves. *)
Definition runs {R A : Type} (c : M R A) (g : heap R -> list string)
    (res : MultiError -> A) : Prop :=
  forall st : frame R,
    c st = Returns (res {| errs := errs (me st) ++ map errors.New (g (mem st)) |},
                    {| mem := mem st;
                       me := {| errs := errs (me st) ++ map errors.New (g (mem st)) |} |}).

Notation "'appends' c g" := (runs c g (fun _ => tt)) (at level 10, c at level 9, g at level 9).

(** The text [Error] writes after the first element: every description
    preceded by the separator. *)
Fixpoint separated (ss : list string) : string :=
  match ss with
  | [] => EmptyString
  | s :: ss' => ("; " ++ s ++ separated ss')%string
  end.

Definition non_nil (e : error) : bool :=
  match e with
  | Some _ => true
  | None => false
  end.

(** Appending the errors [es] one after the other. *)
Definition Append_all (es : list error) (m : MultiError) : MultiError :=
  fold_left (fun m e => Append e m) es m.

(** What the wrappers make of a validator's outcome. *)
Definition must {R : Type} (o : outcome (error * heap R)) : outcome (unit * heap R) :=
  match o with
  | Returns (Some err, _) => Panics (panicValue err)
  | Returns (None, h') => Returns (tt, h')
  | Panics p => Panics p
  end.

(** The number of bytes [c] in [s]. *)
Fixpoint count_char (c : ascii) (s : string) : nat :=
  match s with
  | EmptyString => 0
  | String x s' => (if Ascii.eqb x c then 1 else 0) + count_char c s'
  end.

Definition is_digit (c : ascii) : bool :=
  let n := nat_of_ascii c in ((48 <=? n) && (n <=? 57))%nat.

(** No description holds a semicolon. *)
Definition semicolon_free (s : string) : Prop := count_char ";" s = 0.

Section TagValid.

Context {K : Constants}.

(** A tag that meets every listed invariant: each enumeration field is one
    of its named constants, the dedup hash matches the eight-hex pattern, the
    origin hint is empty or matches the country-code pattern. *)
Definition tag_ok (t : ProvenanceTag) : Prop :=
  In (AcctAgeBucket t) acct_age_buckets
  /\ In (AcctType t) acct_types
  /\ In (AutomationFlag t) automation_flags
  /\ In (PostKind t) post_kinds
  /\ In (ClientFamily t) client_families
  /\ In (MediaProvenance t) media_provenances
  /\ regexp.MatchString ReHex8 (DedupHash t) = true
  /\ (OriginHint t = EmptyString \/ regexp.MatchString ReISO3166 (OriginHint t) = true).

End TagValid.

(** A series that meets every listed invariant. *)
Definition series_ok (s : Series) : Prop :=
  Topic s <> EmptyString
  /\ time.IsZero (GeneratedAt s) = false
  /\ Interval s = "minute"%string
  /\ Points s <> []
  /\ Forall point_ok (Points s).

(** What the range test of the source lets through: a value of the unit
    interval, or NaN, on which [<] and [>] are both false. *)
Definition ratio_admitted (x : float) : Prop :=
  in_unit_interval x = true \/ is_nan x = true.

Definition point_admitted (p : Point) : Prop :=
  (0 <= Volume p)%Z
  /\ ratio_admitted (ReshareRatio p)
  /\ ratio_admitted (RecycledContentRate p)
  /\ ratio_admitted (BurstScore (CoordinationSignals p))
  /\ ratio_admitted (SynchronyIndex (CoordinationSignals p))
  /\ (0 <= DuplicationClusters (CoordinationSignals p))%Z.

Definition series_admitted (s : Series) : Prop :=
  Topic s <> EmptyString
  /\ time.IsZero (GeneratedAt s) = false
  /\ Interval s = "minute"%string
  /\ Points s <> []
  /\ Forall point_admitted (Points s).

(** The checks of a point as the invariants word them: a count is violated
    when it is negative, a ratio when it does not lie in the unit interval. *)
Definition point_invariant_checks (i : nat) (p : Point) : list check :=
  [ ((Volume p <? 0)%Z, volume_msg i);
    (negb (in_unit_interval (ReshareRatio p)), reshare_ratio_msg i);
    (negb (in_unit_interval (RecycledContentRate p)), recycled_content_rate_msg i);
    (negb (in_unit_interval (BurstScore (CoordinationSignals p))), burst_score_msg i);
    (negb (in_unit_interval (SynchronyIndex (CoordinationSignals p))), synchrony_index_msg i);
    ((DuplicationClusters (CoordinationSignals p) <? 0)%Z, duplication_clusters_msg i) ].

Fixpoint points_invariant_checks (i : nat) (ps : list Point) : list check :=
  match ps with
  | [] => []
  | p :: ps' => point_invariant_checks i p ++ points_invariant_checks (S i) ps'
  end.

Definition series_invariant_checks (s : Series) : list check :=
  entity_checks s ++ points_invariant_checks 0 (Points s).

(** A point none of whose ratios is NaN. *)
Definition point_no_nan (p : Point) : Prop :=
  is_nan (ReshareRatio p) = false
  /\ is_nan (RecycledContentRate p) = false
  /\ is_nan (BurstScore (CoordinationSignals p)) = false
  /\ is_nan (SynchronyIndex (CoordinationSignals p)) = false.

(** The descriptions of the six checks of a point, as functions of the index. *)
Definition point_msgs : list (nat -> string) :=
  [volume_msg; reshare_ratio_msg; recycled_content_rate_msg;
   burst_score_msg; synchrony_index_msg; duplication_clusters_msg].

(** [renders e s]: [e] is a non-nil error whose [Error] returns [s]. *)
Definition renders (e : error) (s : string) : Prop :=
  exists v : error_value, e = Some v /\ Error_value v = Returns s.

(** An aggregator inside an aggregator, and one holding a nil entry. *)
Definition nested_errs : list error :=
  [errors.New "a"; Some (multiError [errors.New "b"; errors.New "c"])].

Definition holed_errs : list error := [errors.New "a"; None; errors.New "b"].

(** * Properties *)

Local Open Scope list_scope.

(** ** The monad of a call *)

Lemma runs_ext {R A : Type} (c : M R A) (g g' : heap R -> list string) res :
  (forall h, g' h = g h) -> runs c g res -> runs c g' res.
Proof.
  intros Hext Hc st. rewrite Hext. apply Hc.
Qed.

Lemma runs_skip {R : Type} : appends (@skip R) (fun _ => []).
Proof.
  intros [h [es]]. unfold skip, ret. cbn. now rewrite app_nil_r.
Qed.

Lemma runs_NilOrError {R : Type} : runs (@me_NilOrError R) (fun _ => []) NilOrError.
Proof.
  intros [h [es]]. unfold me_NilOrError. cbn. now rewrite app_nil_r.
Qed.

Lemma runs_New {R : Type} (s : string) :
  appends (@me_Append R (errors.New s)) (fun _ => [s]).
Proof.
  intros st. reflexivity.
Qed.

Lemma runs_seq {R A : Type} (c1 : M R unit) (c2 : M R A) (g1 g2 : heap R -> list string) res :
  appends c1 g1 -> runs c2 g2 res -> runs (c1 ;; c2) (fun h => g1 h ++ g2 h) res.
Proof.
  intros H1 H2 st. unfold bind. rewrite H1, H2. cbn.
  now rewrite map_app, app_assoc.
Qed.

Lemma runs_load {R A B : Type} (l : loc) (f : R -> A) (k : A -> M R B)
    (g : A -> heap R -> list string) res :
  (forall x, runs (k x) (g x) res) ->
  runs (x <- load (addr l) f ;; k x) (fun h => g (f (h l)) h) res.
Proof.
  intros Hk st. unfold bind, load. apply Hk.
Qed.

Lemma runs_if {R : Type} (b : bool) (s : string) :
  appends (if b then @me_Append R (errors.New s) else skip)
          (fun _ => violations [(b, s)]).
Proof.
  destruct b; [apply runs_New | apply runs_skip].
Qed.

Lemma runs_switch {R : Type} (x : string) (names : list string) (s : string) :
  appends (@switch_default R x names (me_Append (errors.New s)))
          (fun _ => violations [(negb (one_of x names), s)]).
Proof.
  unfold switch_default, one_of.
  destruct (existsb (String.eqb x) names); [apply runs_skip | apply runs_New].
Qed.

Lemma call_runs {R A : Type} (c : M R A) (g : heap R -> list string) res (h : heap R) :
  runs c g res ->
  call c h = Returns (res {| errs := map errors.New (g h) |}, h).
Proof.
  intros Hc. unfold call. rewrite Hc. reflexivity.
Qed.

Lemma violations_app (cs1 cs2 : list check) :
  violations (cs1 ++ cs2) = violations cs1 ++ violations cs2.
Proof.
  unfold violations. now rewrite filter_app, map_app.
Qed.

Lemma violations_cons (c : check) (cs : list check) :
  violations (c :: cs) = violations [c] ++ violations cs.
Proof.
  apply (violations_app [c] cs).
Qed.

(** ** What a validator call does *)

Ltac run_step :=
  first [ eapply runs_load; intros ?
        | eapply runs_seq
        | apply runs_switch
        | apply runs_if
        | apply runs_NilOrError ].

Section TagRun.

Context {K : Constants}.

Lemma runs_origin_hint {R : Type} (x : string) :
  appends (let err := validateISO3166MaybeEmpty x in
           match err with
           | Some _ => @me_Append R err
           | None => skip
           end)
          (fun _ => violations
             [(negb (origin_hint_ok x),
               "origin_hint/country must match ISO-3166 pattern (e.g., US or US-CA)"%string)]).
Proof.
  unfold validateISO3166MaybeEmpty, origin_hint_ok.
  destruct (String.eqb x EmptyString); [apply runs_skip |].
  destruct (regexp.MatchString ReISO3166 x); [apply runs_skip | apply runs_New].
Qed.

Lemma ValidateProvenanceTag_run (l : loc) (h : heap ProvenanceTag) :
  ValidateProvenanceTag (addr l) h
  = Returns (NilOrError {| errs := map errors.New (violations (tag_checks (h l))) |}, h).
Proof.
  unfold ValidateProvenanceTag.
  apply (call_runs _ (fun h => violations (tag_checks (h l)))).
  eapply runs_ext; [| repeat first [run_step | apply runs_origin_hint]].
  intros h'. unfold tag_checks. rewrite !(violations_cons _ (_ :: _)).
  now rewrite app_nil_r.
Qed.

End TagRun.

Lemma runs_check_point {R : Type} (i : nat) (p : Point) :
  appends (@check_point R i p) (fun _ => violations (point_checks i p)).
Proof.
  unfold check_point.
  eapply runs_ext; [| repeat first [eapply runs_seq | apply runs_if]].
  intros h. unfold point_checks. rewrite !(violations_cons _ (_ :: _)).
  reflexivity.
Qed.

Lemma runs_range_Points {R : Type} (ps : list Point) :
  forall i : nat,
    appends (@range_Points R i ps) (fun _ => violations (points_checks i ps)).
Proof.
  induction ps as [| p ps IH]; intros i; cbn [range_Points points_checks].
  - apply runs_skip.
  - eapply runs_ext; [| eapply runs_seq; [apply runs_check_point | apply IH]].
    intros h. apply violations_app.
Qed.

Lemma length_eqb_0 {A : Type} (xs : list A) :
  (List.length xs =? 0)%nat = match xs with [] => true | _ :: _ => false end.
Proof.
  now destruct xs.
Qed.

Lemma ValidateSeries_run (l : loc) (h : heap Series) :
  ValidateSeries (addr l) h
  = Returns (NilOrError {| errs := map errors.New (violations (series_checks (h l))) |}, h).
Proof.
  unfold ValidateSeries.
  apply (call_runs _ (fun h => violations (series_checks (h l)))).
  eapply runs_ext; [| repeat first [run_step | apply runs_range_Points]].
  intros h'. unfold series_checks, entity_checks.
  rewrite violations_app, !(violations_cons _ (_ :: _)), <- length_eqb_0.
  rewrite <- !app_assoc, app_nil_r. reflexivity.
Qed.

(** ** Rendering the message *)

Lemma append_assoc (a b c : string) : ((a ++ b) ++ c = a ++ (b ++ c))%string.
Proof.
  induction a as [| x a IH]; cbn; [reflexivity | now rewrite IH].
Qed.

Lemma append_nil_r (a : string) : (a ++ EmptyString)%string = a.
Proof.
  induction a as [| x a IH]; cbn; [reflexivity | now rewrite IH].
Qed.

Lemma concat_separated (s : string) (ss : list string) :
  String.concat "; " (s :: ss) = (s ++ separated ss)%string.
Proof.
  revert s. induction ss as [| s' ss IH]; intros s.
  - cbn. now rewrite append_nil_r.
  - change (String.concat "; " (s :: s' :: ss))
      with (s ++ "; " ++ String.concat "; " (s' :: ss))%string.
    rewrite IH. reflexivity.
Qed.

Lemma Error_range_later (ss : list string) :
  forall (i : nat) (b : Builder),
    Error_range Error_value (map errors.New ss) (S i) b
    = Returns (b ++ separated ss)%string.
Proof.
  induction ss as [| s ss IH]; intros i b; cbn [map Error_range separated].
  - now rewrite append_nil_r.
  - cbn [errors.New Error_value Nat.ltb Nat.leb]. rewrite IH.
    unfold WriteString. now rewrite !append_assoc.
Qed.

Lemma Error_value_strings (ss : list string) :
  Error_value (multiError (map errors.New ss)) = Returns (String.concat "; " ss).
Proof.
  destruct ss as [| s ss]; [reflexivity |].
  rewrite concat_separated. cbn [Error_value map List.length Nat.eqb Error_range errors.New].
  cbn [Nat.ltb Nat.leb]. rewrite Error_range_later. reflexivity.
Qed.

Lemma NilOrError_strings (ss : list string) :
  NilOrError {| errs := map errors.New ss |}
  = match ss with
    | [] => None
    | _ :: _ => Some (multiError (map errors.New ss))
    end.
Proof.
  now destruct ss.
Qed.

(** ** The aggregator *)

Lemma Append_all_errs (es : list error) :
  forall m : MultiError, errs (Append_all es m) = errs m ++ filter non_nil es.
Proof.
  induction es as [| e es IH]; intros m; cbn [Append_all fold_left filter].
  - now rewrite app_nil_r.
  - fold (Append_all es (Append e m)). rewrite IH.
    destruct e as [v |]; cbn [Append non_nil errs]; [| reflexivity].
    now rewrite <- app_assoc.
Qed.

(** C3: [NilOrError] returns nil exactly when no failure has been recorded;
    when it returns a non-nil error, that error is the aggregator itself and
    holds at least one recorded failure. *)
Theorem NilOrError_nil_iff_empty (m : MultiError) :
  (NilOrError m = None <-> errs m = [])
  /\ (NilOrError m <> None <-> errs m <> [])
  /\ (forall v : error_value,
        NilOrError m = Some v ->
        v = multiError (errs m) /\ (0 < List.length (recorded (Some v)))%nat).
Proof.
  destruct m as [[| e es]]; unfold NilOrError, as_error; cbn.
  - split; [| split]; [split; congruence | split; congruence | discriminate].
  - split; [| split]; [split; discriminate | split; intros _; discriminate |].
    intros v Hv. injection Hv as <-. cbn. split; [reflexivity | lia].
Qed.

(** C7: [Append] of nil leaves the aggregator as it is; [Append] of a non-nil
    error records it after the failures recorded so far; hence after any
    sequence of appends the recorded failures are the earlier ones followed by
    the non-nil appended errors, in the order of the appends. *)
Theorem Append_keeps_order (m : MultiError) :
  Append None m = m
  /\ (forall v : error_value, errs (Append (Some v) m) = errs m ++ [Some v])
  /\ (forall es : list error, errs (Append_all es m) = errs m ++ filter non_nil es)
  /\ (forall es : list error,
        Forall (fun e => e <> None) (errs m) ->
        Forall (fun e => e <> None) (errs (Append_all es m))).
Proof.
  split; [reflexivity | split; [reflexivity | split]].
  - intros es. apply Append_all_errs.
  - intros es Hm. rewrite Append_all_errs. apply Forall_app. split; [exact Hm |].
    apply Forall_forall. intros e He. apply filter_In in He.
    destruct He as [_ He]. now destruct e.
Qed.

(** ** Nil records *)

(** C10: on a nil record reference both validators fault with a nil
    dereference instead of returning; on every non-nil reference they return,
    with the heap as they found it. *)
Theorem validators_fault_on_nil :
  (forall (K : Constants) (h : heap ProvenanceTag),
      ValidateProvenanceTag nilptr h = Panics nilDereference)
  /\ (forall h : heap Series, ValidateSeries nilptr h = Panics nilDereference)
  /\ (forall (K : Constants) (l : loc) (h : heap ProvenanceTag),
        exists e : error, ValidateProvenanceTag (addr l) h = Returns (e, h))
  /\ (forall (l : loc) (h : heap Series),
        exists e : error, ValidateSeries (addr l) h = Returns (e, h)).
Proof.
  repeat split.
  - intros K l h. eexists. apply ValidateProvenanceTag_run.
  - intros l h. eexists. apply ValidateSeries_run.
Qed.

(** ** The [Must] wrappers *)

Lemma must_cases {R : Type} (o : outcome (error * heap R)) :
  (forall w : error_value, o <> Panics (panicValue w)) ->
  (forall v : error_value,
      must o = Panics (panicValue v) <-> exists h1, o = Returns (Some v, h1))
  /\ (forall h' : heap R, must o = Returns (tt, h') <-> o = Returns (None, h'))
  /\ (must o = Panics nilDereference <-> o = Panics nilDereference).
Proof.
  intros Hno. destruct o as [[[w |] h1] | [| w]]; cbn [must].
  - split; [| split].
    + intros v. split.
      * intros H. injection H as <-. now exists h1.
      * intros [h2 H]. now injection H as <- _.
    + intros h'. split; discriminate.
    + split; discriminate.
  - split; [| split].
    + intros v. split; [discriminate |]. intros [h2 H]. discriminate.
    + intros h'. split; intros H; injection H as <-; reflexivity.
    + split; discriminate.
  - split; [| split].
    + intros v. split; [discriminate |]. intros [h2 H]. discriminate.
    + intros h'. split; discriminate.
    + split; reflexivity.
  - now destruct (Hno w).
Qed.

Lemma ValidateProvenanceTag_no_panic_value {K : Constants} (t : ptr) (h : heap ProvenanceTag)
    (w : error_value) :
  ValidateProvenanceTag t h <> Panics (panicValue w).
Proof.
  destruct t as [| l]; [discriminate |].
  now rewrite ValidateProvenanceTag_run.
Qed.

Lemma ValidateSeries_no_panic_value (s : ptr) (h : heap Series) (w : error_value) :
  ValidateSeries s h <> Panics (panicValue w).
Proof.
  destruct s as [| l]; [discriminate |].
  now rewrite ValidateSeries_run.
Qed.

(** C8: [MustProvenanceTag] and [MustSeries] panic with an error value
    exactly when the validator returns that error, return normally exactly
    when the validator returns nil, pass on a fault of the validator, and so
    decide by the validator's checks alone: on a non-nil record they return
    exactly when no check of the record is violated. *)
Theorem Must_escalates_iff_error (K : Constants) :
  (forall (t : ptr) (h : heap ProvenanceTag),
      (forall v : error_value,
          MustProvenanceTag t h = Panics (panicValue v)
          <-> exists h', ValidateProvenanceTag t h = Returns (Some v, h'))
      /\ (forall h' : heap ProvenanceTag,
            MustProvenanceTag t h = Returns (tt, h')
            <-> ValidateProvenanceTag t h = Returns (None, h'))
      /\ (MustProvenanceTag t h = Panics nilDereference
          <-> ValidateProvenanceTag t h = Panics nilDereference))
  /\ (forall (s : ptr) (h : heap Series),
        (forall v : error_value,
            MustSeries s h = Panics (panicValue v)
            <-> exists h', ValidateSeries s h = Returns (Some v, h'))
        /\ (forall h' : heap Series,
              MustSeries s h = Returns (tt, h')
              <-> ValidateSeries s h = Returns (None, h'))
        /\ (MustSeries s h = Panics nilDereference
            <-> ValidateSeries s h = Panics nilDereference))
  /\ (forall (l : loc) (h : heap ProvenanceTag),
        MustProvenanceTag (addr l) h = Returns (tt, h)
        <-> violations (tag_checks (h l)) = [])
  /\ (forall (l : loc) (h : heap Series),
        MustSeries (addr l) h = Returns (tt, h)
        <-> violations (series_checks (h l)) = []).
Proof.
  split; [| split; [| split]].
  - intros t h. apply (must_cases (ValidateProvenanceTag t h)).
    intros w. apply ValidateProvenanceTag_no_panic_value.
  - intros s h. apply (must_cases (ValidateSeries s h)).
    intros w. apply ValidateSeries_no_panic_value.
  - intros l h. unfold MustProvenanceTag.
    rewrite ValidateProvenanceTag_run, NilOrError_strings.
    destruct (violations (tag_checks (h l))); cbn; split; congruence.
  - intros l h. unfold MustSeries.
    rewrite ValidateSeries_run, NilOrError_strings.
    destruct (violations (series_checks (h l))); cbn; split; congruence.
Qed.

(** ** Counting separators *)

Lemma count_char_append (c : ascii) (a b : string) :
  count_char c (a ++ b)%string = count_char c a + count_char c b.
Proof.
  induction a as [| x a IH]; cbn; [reflexivity | rewrite IH; lia].
Qed.

Lemma string_of_uint_digits (d : uint) :
  all_chars is_digit (NilEmpty.string_of_uint d) = true.
Proof.
  induction d; cbn; auto.
Qed.

Lemma Itoa_digits (i : nat) : all_chars is_digit (strconv.Itoa i) = true.
Proof.
  unfold strconv.Itoa, NilZero.string_of_uint.
  destruct (Nat.to_uint i) eqn:E; try reflexivity;
    rewrite <- E; apply string_of_uint_digits.
Qed.

Lemma count_char_none (p : ascii -> bool) (c : ascii) (s : string) :
  p c = false -> all_chars p s = true -> count_char c s = 0.
Proof.
  intros Hc. induction s as [| x s IH]; cbn; [reflexivity |].
  intros H. apply andb_true_iff in H. destruct H as [Hx Hs].
  destruct (Ascii.eqb_spec x c) as [-> |]; [congruence | now apply IH].
Qed.

Lemma Itoa_semicolon_free (i : nat) : semicolon_free (strconv.Itoa i).
Proof.
  apply (count_char_none is_digit); [reflexivity | apply Itoa_digits].
Qed.

Lemma count_char_separated (ss : list string) :
  Forall semicolon_free ss -> count_char ";" (separated ss) = List.length ss.
Proof.
  induction 1 as [| s ss Hs _ IH]; cbn [separated List.length]; [reflexivity |].
  rewrite !count_char_append, Hs, IH. reflexivity.
Qed.

Lemma count_char_concat (ss : list string) :
  Forall semicolon_free ss ->
  count_char ";" (String.concat "; " ss) = List.length ss - 1.
Proof.
  destruct ss as [| s ss]; [reflexivity |]. intros H.
  rewrite concat_separated, count_char_append.
  inversion H as [| ? ? Hs Hss]; subst.
  rewrite Hs, count_char_separated by assumption. cbn. lia.
Qed.

Lemma violations_Forall (P : string -> Prop) (cs : list check) :
  Forall (fun c => P (snd c)) cs -> Forall P (violations cs).
Proof.
  induction 1 as [| [b s] cs Hc _ IH]; cbn; [constructor |].
  destruct b; cbn; [constructor; assumption | exact IH].
Qed.

Lemma tag_checks_semicolon_free {K : Constants} (t : ProvenanceTag) :
  Forall semicolon_free (violations (tag_checks t)).
Proof.
  apply violations_Forall. unfold tag_checks. repeat constructor.
Qed.

Lemma point_checks_semicolon_free (i : nat) (p : Point) :
  Forall (fun c => semicolon_free (snd c)) (point_checks i p).
Proof.
  unfold point_checks.
  repeat constructor; cbn [snd]; unfold semicolon_free;
    match goal with
    | |- count_char _ (?f i) = 0 => unfold f, point_msg
    end;
    rewrite !count_char_append, (Itoa_semicolon_free i); reflexivity.
Qed.

Lemma points_checks_semicolon_free (ps : list Point) :
  forall i : nat, Forall (fun c => semicolon_free (snd c)) (points_checks i ps).
Proof.
  induction ps as [| p ps IH]; intros i; cbn [points_checks]; [constructor |].
  apply Forall_app. split; [apply point_checks_semicolon_free | apply IH].
Qed.

Lemma series_checks_semicolon_free (s : Series) :
  Forall semicolon_free (violations (series_checks s)).
Proof.
  apply violations_Forall. unfold series_checks. apply Forall_app. split.
  - unfold entity_checks. repeat constructor.
  - apply points_checks_semicolon_free.
Qed.

(** ** All failures, in the order of the checks *)

Lemma reported (vs : list string) :
  (NilOrError {| errs := map errors.New vs |} = None <-> vs = [])
  /\ recorded (NilOrError {| errs := map errors.New vs |}) = map errors.New vs
  /\ message (NilOrError {| errs := map errors.New vs |}) = Returns (String.concat "; " vs).
Proof.
  rewrite NilOrError_strings. destruct vs as [| s ss].
  - repeat split; reflexivity.
  - split; [split; discriminate | split; [reflexivity |]].
    cbn [message]. apply Error_value_strings.
Qed.

(** X20: a validator returns an error that is nil exactly when no test of
    the code fires and otherwise records, in the order of the checks, one
    failure per test that fires: for a tag the six enumerations, the dedup
    hash, the origin hint; for a series the four entity checks, then the six
    checks of each point by ascending index, a ratio firing its test when it
    is below 0 or above 1. Its message is the descriptions joined by "; ",
    and as no description holds a semicolon, a message of N descriptions
    holds N - 1 separators. *)
Theorem failures_joined_in_check_order (K : Constants) :
  (forall (l : loc) (h : heap ProvenanceTag),
      exists e : error,
        ValidateProvenanceTag (addr l) h = Returns (e, h)
        /\ (e = None <-> violations (tag_checks (h l)) = [])
        /\ recorded e = map errors.New (violations (tag_checks (h l)))
        /\ message e = Returns (String.concat "; " (violations (tag_checks (h l))))
        /\ count_char ";" (String.concat "; " (violations (tag_checks (h l))))
           = List.length (violations (tag_checks (h l))) - 1)
  /\ (forall (l : loc) (h : heap Series),
        exists e : error,
          ValidateSeries (addr l) h = Returns (e, h)
          /\ (e = None <-> violations (series_checks (h l)) = [])
          /\ recorded e = map errors.New (violations (series_checks (h l)))
          /\ message e = Returns (String.concat "; " (violations (series_checks (h l))))
          /\ count_char ";" (String.concat "; " (violations (series_checks (h l))))
             = List.length (violations (series_checks (h l))) - 1).
Proof.
  split; intros l h; eexists.
  - split; [apply ValidateProvenanceTag_run |].
    destruct (reported (violations (tag_checks (h l)))) as (Hnil & Hrec & Hmsg).
    repeat split; try apply Hnil; try assumption.
    apply count_char_concat, tag_checks_semicolon_free.
  - split; [apply ValidateSeries_run |].
    destruct (reported (violations (series_checks (h l)))) as (Hnil & Hrec & Hmsg).
    repeat split; try apply Hnil; try assumption.
    apply count_char_concat, series_checks_semicolon_free.
Qed.

(** ** The footprint of a validation *)

(** C9: the error a validator returns depends on the record alone, and the
    call writes nothing: two calls on records with equal fields, be it the
    same record validated again after the rest of memory has changed or a
    copy of it at another address, return the same error, nil or not, whose
    message is one well-defined text, and each call hands back its heap as it
    found it. *)
Theorem validation_reads_record_only (K : Constants) :
  (forall (l l' : loc) (h h' : heap ProvenanceTag),
      h l = h' l' ->
      exists (e : error) (msg : string),
        ValidateProvenanceTag (addr l) h = Returns (e, h)
        /\ ValidateProvenanceTag (addr l') h' = Returns (e, h')
        /\ message e = Returns msg)
  /\ (forall (l l' : loc) (h h' : heap Series),
        h l = h' l' ->
        exists (e : error) (msg : string),
          ValidateSeries (addr l) h = Returns (e, h)
          /\ ValidateSeries (addr l') h' = Returns (e, h')
          /\ message e = Returns msg).
Proof.
  split; intros l l' h h' Hsame.
  - rewrite !ValidateProvenanceTag_run, <- Hsame.
    eexists. exists (String.concat "; " (violations (tag_checks (h l)))).
    split; [reflexivity | split; [reflexivity |]].
    apply (reported (violations (tag_checks (h l)))).
  - rewrite !ValidateSeries_run, <- Hsame.
    eexists. exists (String.concat "; " (violations (series_checks (h l)))).
    split; [reflexivity | split; [reflexivity |]].
    apply (reported (violations (series_checks (h l)))).
Qed.

(** ** Valid records *)

Lemma one_of_In (x : string) (names : list string) :
  one_of x names = true <-> In x names.
Proof.
  unfold one_of. rewrite existsb_exists. split.
  - intros (y & Hy & E). apply String.eqb_eq in E. now subst.
  - intros H. exists x. split; [exact H | apply String.eqb_refl].
Qed.

Lemma violations_none (cs : list check) :
  Forall (fun c => fst c = false) cs -> violations cs = [].
Proof.
  induction 1 as [| [b s] cs Hb _ IH]; [reflexivity |].
  cbn in Hb. subst b. exact IH.
Qed.

(** Comparison of binary64 data is antisymmetric where it is defined. *)
Lemma SFcompare_antisym (a b : spec_float) (c : comparison) :
  SFcompare a b = Some c -> SFcompare b a = Some (CompOpp c).
Proof.
  destruct a as [sa | sa | | sa ma ea], b as [sb | sb | | sb mb eb]; cbn;
    try discriminate; intros H; injection H as <-;
    try (destruct sa; reflexivity); try (destruct sb; reflexivity);
    try (destruct sa, sb; reflexivity).
  destruct sa, sb; try reflexivity;
    rewrite (Z.compare_antisym ea eb);
    destruct (ea ?= eb)%Z; cbn; try reflexivity;
    change PosDef.Pos.compare_cont with Pos.compare_cont;
    now rewrite (Pos.compare_cont_antisym ma mb Eq).
Qed.

Lemma leb_not_ltb (x y : float) : (x <=? y)%float = true -> (y <? x)%float = false.
Proof.
  rewrite leb_spec, ltb_spec. unfold SFleb, SFltb.
  destruct (SFcompare (Prim2SF x) (Prim2SF y)) as [c |] eqn:E; [| discriminate].
  rewrite (SFcompare_antisym _ _ _ E). now destruct c.
Qed.

Lemma in_unit_interval_inside (x : float) :
  in_unit_interval x = true -> outside_unit_interval x = false.
Proof.
  unfold in_unit_interval, outside_unit_interval. intros H.
  apply andb_true_iff in H. destruct H as [H0 H1].
  now rewrite (leb_not_ltb _ _ H0), (leb_not_ltb _ _ H1).
Qed.

Lemma point_ok_no_violation (i : nat) (p : Point) :
  point_ok p -> Forall (fun c => fst c = false) (point_checks i p).
Proof.
  intros (Hv & Hr & Hc & Hb & Hs & Hd). unfold point_checks.
  repeat constructor; cbn [fst];
    try (apply in_unit_interval_inside; assumption);
    apply Z.ltb_ge; assumption.
Qed.

Lemma points_ok_no_violation (ps : list Point) :
  Forall point_ok ps ->
  forall i : nat, Forall (fun c => fst c = false) (points_checks i ps).
Proof.
  induction 1 as [| p ps Hp _ IH]; intros i; cbn [points_checks]; [constructor |].
  apply Forall_app. split; [now apply point_ok_no_violation | apply IH].
Qed.

Lemma tag_ok_no_violation {K : Constants} (t : ProvenanceTag) :
  tag_ok t -> violations (tag_checks t) = [].
Proof.
  intros (H1 & H2 & H3 & H4 & H5 & H6 & H7 & H8).
  apply violations_none. unfold tag_checks.
  repeat constructor; cbn [fst]; apply negb_false_iff;
    try (apply one_of_In; assumption); try assumption.
  unfold origin_hint_ok. destruct H8 as [-> | ->]; [reflexivity | apply orb_true_r].
Qed.

Lemma series_ok_no_violation (s : Series) :
  series_ok s -> violations (series_checks s) = [].
Proof.
  intros (Ht & Hg & Hi & Hp & Hps).
  apply violations_none. unfold series_checks. apply Forall_app. split.
  - unfold entity_checks. repeat constructor; cbn [fst].
    + now apply String.eqb_neq.
    + exact Hg.
    + rewrite Hi. reflexivity.
    + now destruct (Points s).
  - now apply points_ok_no_violation.
Qed.

(** C2: a provenance tag that meets every listed invariant, and a series that
    meets every listed invariant, are validated with a nil error. *)
Theorem valid_records_pass (K : Constants) :
  (forall (l : loc) (h : heap ProvenanceTag),
      tag_ok (h l) -> ValidateProvenanceTag (addr l) h = Returns (None, h))
  /\ (forall (l : loc) (h : heap Series),
        series_ok (h l) -> ValidateSeries (addr l) h = Returns (None, h)).
Proof.
  split; intros l h Hok.
  - rewrite ValidateProvenanceTag_run, (tag_ok_no_violation _ Hok). reflexivity.
  - rewrite ValidateSeries_run, (series_ok_no_violation _ Hok). reflexivity.
Qed.

Lemma sample_tag_ok : tag_ok (K := sample_constants) sample_tag.
Proof.
  unfold tag_ok. cbn. repeat split; auto 10.
Qed.

Lemma sample_point_ok : point_ok sample_point.
Proof.
  unfold point_ok. cbn. repeat split; try reflexivity; lia.
Qed.

Lemma sample_series_ok : series_ok sample_series.
Proof.
  unfold series_ok. cbn. repeat split; try discriminate.
  repeat constructor; apply sample_point_ok.
Qed.

Lemma valid_records_pass_witness :
  ValidateProvenanceTag (K := sample_constants) (addr 0) (heap_of sample_tag)
  = Returns (None, heap_of sample_tag)
  /\ ValidateSeries (addr 0) (heap_of sample_series) = Returns (None, heap_of sample_series).
Proof.
  split.
  - apply (proj1 (valid_records_pass sample_constants) 0 (heap_of sample_tag)).
    exact sample_tag_ok.
  - apply (proj2 (valid_records_pass sample_constants) 0 (heap_of sample_series)).
    exact sample_series_ok.
Defined.

(** ** An empty series *)

(** C4: a series without points whose topic, timestamp and interval are
    valid is reported with exactly one failure, "series must contain at least
    one point", and with no failure of any point. *)
Theorem empty_series_one_failure (l : loc) (h : heap Series) :
  Topic (h l) <> EmptyString ->
  time.IsZero (GeneratedAt (h l)) = false ->
  Interval (h l) = "minute"%string ->
  Points (h l) = [] ->
  exists v : error_value,
    ValidateSeries (addr l) h = Returns (Some v, h)
    /\ recorded (Some v) = [errors.New "series must contain at least one point"]
    /\ Error_value v = Returns "series must contain at least one point"%string
    /\ points_checks 0 (Points (h l)) = [].
Proof.
  intros Ht Hg Hi Hp. rewrite ValidateSeries_run.
  assert (E : violations (series_checks (h l))
              = ["series must contain at least one point"%string]).
  { unfold series_checks, entity_checks. rewrite Hp, Hg, Hi.
    apply String.eqb_neq in Ht. rewrite Ht. reflexivity. }
  rewrite E, Hp. eexists. repeat split.
Qed.

Lemma empty_series_one_failure_witness :
  exists v : error_value,
    ValidateSeries (addr 0) (heap_of empty_series) = Returns (Some v, heap_of empty_series)
    /\ recorded (Some v) = [errors.New "series must contain at least one point"]
    /\ Error_value v = Returns "series must contain at least one point"%string
    /\ points_checks 0 (Points (heap_of empty_series 0)) = [].
Proof.
  apply (empty_series_one_failure 0 (heap_of empty_series));
    [discriminate | reflexivity | reflexivity | reflexivity].
Defined.

(** ** A tag with two failures *)

(** C6: a tag whose account type is none of the named constants and whose
    dedup hash is "ZZZZZZZZ", every other field being valid, is reported
    with the message
    "invalid acct_type; dedup_hash must be 8 lowercase hex chars". *)
Theorem bad_acct_type_and_hash (K : Constants) (l : loc) (h : heap ProvenanceTag) :
  ~ In (AcctType (h l)) acct_types ->
  DedupHash (h l) = "ZZZZZZZZ"%string ->
  In (AcctAgeBucket (h l)) acct_age_buckets ->
  In (AutomationFlag (h l)) automation_flags ->
  In (PostKind (h l)) post_kinds ->
  In (ClientFamily (h l)) client_families ->
  In (MediaProvenance (h l)) media_provenances ->
  (OriginHint (h l) = EmptyString \/ regexp.MatchString ReISO3166 (OriginHint (h l)) = true) ->
  exists v : error_value,
    ValidateProvenanceTag (addr l) h = Returns (Some v, h)
    /\ Error_value v
       = Returns "invalid acct_type; dedup_hash must be 8 lowercase hex chars"%string
    /\ recorded (Some v)
       = [errors.New "invalid acct_type"; errors.New "dedup_hash must be 8 lowercase hex chars"].
Proof.
  intros Htype Hhash Hage Hauto Hpost Hclient Hmedia Hhint.
  rewrite ValidateProvenanceTag_run.
  assert (E : violations (tag_checks (h l))
              = ["invalid acct_type"%string;
                 "dedup_hash must be 8 lowercase hex chars"%string]).
  { unfold tag_checks. rewrite Hhash.
    apply one_of_In in Hage, Hauto, Hpost, Hclient, Hmedia.
    rewrite Hage, Hauto, Hpost, Hclient, Hmedia.
    assert (Ht : one_of (AcctType (h l)) acct_types = false).
    { apply not_true_is_false. intros H. now apply Htype, one_of_In. }
    assert (Ho : origin_hint_ok (OriginHint (h l)) = true).
    { unfold origin_hint_ok. destruct Hhint as [-> | ->]; [reflexivity | apply orb_true_r]. }
    rewrite Ht, Ho. reflexivity. }
  rewrite E. eexists. repeat split.
Qed.

Lemma bad_acct_type_and_hash_witness :
  exists v : error_value,
    ValidateProvenanceTag (K := sample_constants) (addr 0)
      (heap_of (set_AcctType "robot" (set_DedupHash "ZZZZZZZZ" sample_tag)))
    = Returns (Some v, heap_of (set_AcctType "robot" (set_DedupHash "ZZZZZZZZ" sample_tag)))
    /\ Error_value v
       = Returns "invalid acct_type; dedup_hash must be 8 lowercase hex chars"%string
    /\ recorded (Some v)
       = [errors.New "invalid acct_type"; errors.New "dedup_hash must be 8 lowercase hex chars"].
Proof.
  apply (bad_acct_type_and_hash sample_constants 0
           (heap_of (set_AcctType "robot" (set_DedupHash "ZZZZZZZZ" sample_tag))));
    cbn; auto 10.
  intros H. repeat (destruct H as [H | H]; [discriminate |]). exact H.
Defined.

(** ** Telling the failures of the points apart *)

Lemma In_violations (s : string) (cs : list check) :
  In s (violations cs) <-> In (true, s) cs.
Proof.
  unfold violations. rewrite in_map_iff. split.
  - intros ([b s'] & E & H). apply filter_In in H. destruct H as [H Hb].
    cbn in E, Hb. now subst.
  - intros H. exists (true, s). split; [reflexivity |].
    apply filter_In. now split.
Qed.

Lemma In_New (s : string) (vs : list string) :
  In (errors.New s) (map errors.New vs) <-> In s vs.
Proof.
  rewrite in_map_iff. split.
  - intros (s' & E & H). injection E as ->. exact H.
  - intros H. now exists s.
Qed.

Lemma digits_then_bracket (a b x y : string) :
  all_chars is_digit a = true -> all_chars is_digit b = true ->
  (a ++ String "]" x = b ++ String "]" y)%string -> a = b /\ x = y.
Proof.
  revert b. induction a as [| c a IH]; intros [| d b] Ha Hb E; cbn in *.
  - injection E as ->. now split.
  - injection E as <- _. discriminate.
  - injection E as -> _. discriminate.
  - injection E as -> E.
    apply andb_true_iff in Ha, Hb. destruct Ha as [_ Ha], Hb as [_ Hb].
    destruct (IH b Ha Hb E) as [-> ->]. now split.
Qed.

Lemma to_uint_nonnil (n : nat) : Nat.to_uint n <> Nil.
Proof.
  rewrite <- (Unsigned.of_to n), Unsigned.to_of. apply DecimalFacts.unorm_nonnil.
Qed.

Lemma Itoa_inj (i j : nat) : strconv.Itoa i = strconv.Itoa j -> i = j.
Proof.
  unfold strconv.Itoa. intros E.
  apply Unsigned.to_uint_inj.
  assert (Hi := NilZero.usu (Nat.to_uint i) (to_uint_nonnil i)).
  assert (Hj := NilZero.usu (Nat.to_uint j) (to_uint_nonnil j)).
  rewrite E in Hi. congruence.
Qed.

Lemma point_msg_inj (i j : nat) (x y : string) :
  point_msg i (String "]" x) = point_msg j (String "]" y) -> i = j /\ x = y.
Proof.
  unfold point_msg. cbn. intros E. injection E as E.
  apply digits_then_bracket in E; try apply Itoa_digits.
  destruct E as [E ->]. split; [now apply Itoa_inj | reflexivity].
Qed.

(** Every check of the point at index [i] is described by a [point_msg] of
    [i] whose text starts with the closing bracket. *)
Lemma point_checks_msg (i : nat) (p : Point) (c : check) :
  In c (point_checks i p) -> exists rest, snd c = point_msg i (String "]" rest).
Proof.
  unfold point_checks. cbn [In].
  intros H. repeat (destruct H as [<- | H]; [eexists; reflexivity |]).
  destruct H.
Qed.

Lemma In_points_checks (c : check) (ps : list Point) :
  forall k : nat,
    In c (points_checks k ps)
    <-> exists j q, nth_error ps j = Some q /\ In c (point_checks (k + j) q).
Proof.
  induction ps as [| p ps IH]; intros k; cbn [points_checks].
  - split; [intros [] |]. intros (j & q & H & _). now destruct j.
  - rewrite in_app_iff, IH. split.
    + intros [H | (j & q & Hj & H)].
      * exists 0, p. rewrite Nat.add_0_r. now split.
      * exists (S j), q. rewrite Nat.add_succ_r. now split.
    + intros ([| j] & q & Hj & H).
      * left. cbn in Hj. injection Hj as <-. now rewrite Nat.add_0_r in H.
      * right. exists j, q. rewrite Nat.add_succ_r in H. now split.
Qed.

(** A failure of the point at index [i] is reported by the series exactly
    when the check of that point reports it. *)
Lemma In_series_point (s : Series) (i : nat) (p : Point) (rest : string) :
  nth_error (Points s) i = Some p ->
  In (point_msg i (String "]" rest)) (violations (series_checks s))
  <-> In (true, point_msg i (String "]" rest)) (point_checks i p).
Proof.
  intros Hi. rewrite In_violations. unfold series_checks.
  rewrite in_app_iff, In_points_checks. split.
  - intros [H | (j & q & Hj & H)].
    + unfold entity_checks in H. cbn [In] in H.
      repeat (destruct H as [H | H]; [discriminate H |]). destruct H.
    + destruct (point_checks_msg _ _ _ H) as [rest' E]. cbn [snd] in E.
      apply point_msg_inj in E. destruct E as [-> _].
      cbn [Nat.add] in Hi, H. rewrite Hi in Hj. injection Hj as <-. exact H.
  - intros H. right. now exists i, p.
Qed.

Ltac other_field H :=
  apply (f_equal snd) in H; cbn [snd] in H;
  apply point_msg_inj in H; destruct H as [_ H]; discriminate H.

Lemma In_point_checks_fields (i : nat) (p : Point) :
  (In (true, reshare_ratio_msg i) (point_checks i p)
   <-> outside_unit_interval (ReshareRatio p) = true)
  /\ (In (true, recycled_content_rate_msg i) (point_checks i p)
      <-> outside_unit_interval (RecycledContentRate p) = true)
  /\ (In (true, burst_score_msg i) (point_checks i p)
      <-> outside_unit_interval (BurstScore (CoordinationSignals p)) = true)
  /\ (In (true, synchrony_index_msg i) (point_checks i p)
      <-> outside_unit_interval (SynchronyIndex (CoordinationSignals p)) = true).
Proof.
  unfold point_checks, volume_msg, reshare_ratio_msg, recycled_content_rate_msg,
    burst_score_msg, synchrony_index_msg, duplication_clusters_msg.
  cbn [In].
  repeat split;
    try (intros H; rewrite H; tauto);
    intros [H | [H | [H | [H | [H | [H | []]]]]]];
    first [ other_field H | apply (f_equal fst) in H; exact H ].
Qed.

Lemma unit_fields_reported (s : Series) (i : nat) (p : Point) :
  nth_error (Points s) i = Some p ->
  (In (reshare_ratio_msg i) (violations (series_checks s))
   <-> outside_unit_interval (ReshareRatio p) = true)
  /\ (In (recycled_content_rate_msg i) (violations (series_checks s))
      <-> outside_unit_interval (RecycledContentRate p) = true)
  /\ (In (burst_score_msg i) (violations (series_checks s))
      <-> outside_unit_interval (BurstScore (CoordinationSignals p)) = true)
  /\ (In (synchrony_index_msg i) (violations (series_checks s))
      <-> outside_unit_interval (SynchronyIndex (CoordinationSignals p)) = true).
Proof.
  intros Hi. destruct (In_point_checks_fields i p) as (H1 & H2 & H3 & H4).
  split; [| split; [| split]].
  - rewrite <- H1. apply (In_series_point s i p _ Hi).
  - rewrite <- H2. apply (In_series_point s i p _ Hi).
  - rewrite <- H3. apply (In_series_point s i p _ Hi).
  - rewrite <- H4. apply (In_series_point s i p _ Hi).
Qed.

(** ** The bounds of the unit interval *)

(** C5: for the point at any index of a series, the failure of the reshare
    ratio, of the recycled-content rate, of the burst score and of the
    synchrony index is reported exactly when the value is below 0 or above 1
    in the strict order of binary64; so the values 0 and 1 raise no failure,
    and every value strictly below 0, such as -0.0000001, or strictly above
    1, such as 1.0000001, raises it. *)
Theorem unit_interval_bounds_inclusive (l : loc) (h : heap Series) (i : nat) (p : Point) :
  nth_error (Points (h l)) i = Some p ->
  exists e : error,
    ValidateSeries (addr l) h = Returns (e, h)
    /\ (In (errors.New (reshare_ratio_msg i)) (recorded e)
        <-> outside_unit_interval (ReshareRatio p) = true)
    /\ (In (errors.New (recycled_content_rate_msg i)) (recorded e)
        <-> outside_unit_interval (RecycledContentRate p) = true)
    /\ (In (errors.New (burst_score_msg i)) (recorded e)
        <-> outside_unit_interval (BurstScore (CoordinationSignals p)) = true)
    /\ (In (errors.New (synchrony_index_msg i)) (recorded e)
        <-> outside_unit_interval (SynchronyIndex (CoordinationSignals p)) = true)
    /\ (forall x : float,
          outside_unit_interval x = true <-> (x <? 0)%float = true \/ (1 <? x)%float = true)
    /\ outside_unit_interval 0 = false
    /\ outside_unit_interval 1 = false
    /\ outside_unit_interval (-0.0000001) = true
    /\ outside_unit_interval 1.0000001 = true.
Proof.
  intros Hi. eexists. split; [apply ValidateSeries_run |].
  destruct (reported (violations (series_checks (h l)))) as (_ & -> & _).
  destruct (unit_fields_reported (h l) i p Hi) as (H1 & H2 & H3 & H4).
  rewrite !In_New.
  split; [| split; [| split; [| split]]]; try assumption.
  - repeat split; try reflexivity.
    + intros H. now apply orb_true_iff in H.
    + intros H. now apply orb_true_iff.
Qed.

Lemma unit_interval_bounds_inclusive_witness :
  exists e : error,
    ValidateSeries (addr 0) (heap_of sample_series) = Returns (e, heap_of sample_series)
    /\ (In (errors.New (reshare_ratio_msg 1)) (recorded e)
        <-> outside_unit_interval (ReshareRatio sample_point) = true)
    /\ (In (errors.New (recycled_content_rate_msg 1)) (recorded e)
        <-> outside_unit_interval (RecycledContentRate sample_point) = true)
    /\ (In (errors.New (burst_score_msg 1)) (recorded e)
        <-> outside_unit_interval (BurstScore (CoordinationSignals sample_point)) = true)
    /\ (In (errors.New (synchrony_index_msg 1)) (recorded e)
        <-> outside_unit_interval (SynchronyIndex (CoordinationSignals sample_point)) = true)
    /\ (forall x : float,
          outside_unit_interval x = true <-> (x <? 0)%float = true \/ (1 <? x)%float = true)
    /\ outside_unit_interval 0 = false
    /\ outside_unit_interval 1 = false
    /\ outside_unit_interval (-0.0000001) = true
    /\ outside_unit_interval 1.0000001 = true.
Proof.
  apply (unit_interval_bounds_inclusive 0 (heap_of sample_series) 1 sample_point).
  reflexivity.
Defined.

(** ** Further properties *)

(** X2: the range checks compare with [<] and [>], which are false on NaN: a
    point whose reshare ratio is NaN raises no reshare-ratio failure, although
    NaN does not lie in the unit interval. *)
Theorem nan_ratio_not_reported (l : loc) (h : heap Series) (i : nat) (p : Point) :
  nth_error (Points (h l)) i = Some p ->
  ReshareRatio p = nan ->
  exists e : error,
    ValidateSeries (addr l) h = Returns (e, h)
    /\ ~ In (errors.New (reshare_ratio_msg i)) (recorded e)
    /\ in_unit_interval (ReshareRatio p) = false.
Proof.
  intros Hi Hnan. eexists. split; [apply ValidateSeries_run |].
  destruct (reported (violations (series_checks (h l)))) as (_ & -> & _).
  destruct (unit_fields_reported (h l) i p Hi) as (H1 & _).
  rewrite In_New, H1, Hnan. split; [discriminate | reflexivity].
Qed.

Lemma nan_ratio_not_reported_witness :
  exists e : error,
    ValidateSeries (addr 0) (heap_of nan_series) = Returns (e, heap_of nan_series)
    /\ ~ In (errors.New (reshare_ratio_msg 0)) (recorded e)
    /\ in_unit_interval (ReshareRatio nan_point) = false.
Proof.
  apply (nan_ratio_not_reported 0 (heap_of nan_series) 0 nan_point); reflexivity.
Defined.

(** * The rest of the aggregator *)

(** ** [Error] *)


Lemma Error_range_renders (es : list error) (ss : list string) :
  Forall2 renders es ss ->
  forall (i : nat) (b : Builder),
    Error_range Error_value es (S i) b = Returns (b ++ separated ss)%string.
Proof.
  induction 1 as [| e s es ss (v & -> & Hv) _ IH]; intros i b;
    cbn [Error_range separated].
  - now rewrite append_nil_r.
  - rewrite Hv. cbn [Nat.ltb Nat.leb]. rewrite IH.
    unfold WriteString. now rewrite !append_assoc.
Qed.

(** X3: when every recorded error is non-nil and has a message, also when it
    is itself an aggregator, [Error] returns these messages joined by "; " in
    the order they were recorded. *)
Theorem Error_joins_messages (m : MultiError) (ss : list string) :
  Forall2 renders (errs m) ss ->
  Error m = Returns (String.concat "; " ss).
Proof.
  destruct m as [es]. cbn [errs]. intros H. unfold Error. cbn [errs].
  destruct H as [| e s es ss (v & -> & Hv) Hrest]; [reflexivity |].
  rewrite concat_separated.
  cbn [Error_value List.length Nat.eqb Error_range Nat.ltb Nat.leb].
  rewrite Hv, (Error_range_renders _ _ Hrest). reflexivity.
Qed.

Lemma nested_errs_render : Forall2 renders nested_errs ["a"; "b; c"]%string.
Proof.
  repeat constructor; eexists; split; reflexivity.
Qed.

Lemma Error_joins_messages_witness :
  Error {| errs := nested_errs |} = Returns (String.concat "; " ["a"; "b; c"]%string).
Proof.
  apply (Error_joins_messages {| errs := nested_errs |} _ nested_errs_render).
Defined.

Lemma Error_range_nil_entry (es : list error) :
  In None es ->
  forall (i : nat) (b : Builder),
    exists p : panic, Error_range Error_value es i b = Panics p.
Proof.
  induction es as [| e es IH]; intros Hin i b; [destruct Hin |].
  cbn [Error_range]. destruct e as [v |]; [| eexists; reflexivity].
  destruct Hin as [Hin | Hin]; [discriminate |].
  destruct (Error_value v) as [s | p]; [apply (IH Hin) | eexists; reflexivity].
Qed.

(** X4: [Error] of an aggregator that holds a nil entry does not return: the
    call panics. [Append] never records such an entry. *)
Theorem Error_faults_on_nil_entry (m : MultiError) :
  In None (errs m) -> exists p : panic, Error m = Panics p.
Proof.
  destruct m as [es]. cbn [errs]. intros Hin. unfold Error. cbn [errs Error_value].
  destruct es as [| e es]; [destruct Hin |].
  cbn [List.length Nat.eqb]. now apply Error_range_nil_entry.
Qed.

Lemma Error_faults_on_nil_entry_witness :
  exists p : panic, Error {| errs := holed_errs |} = Panics p.
Proof.
  apply (Error_faults_on_nil_entry {| errs := holed_errs |}).
  cbn. auto.
Defined.



(** ** [Unwrap] *)

Lemma filter_not_nil_idem (es : list error) :
  filter errors.not_nil (filter errors.not_nil es) = filter errors.not_nil es.
Proof.
  induction es as [| [v |] es IH]; cbn; [reflexivity | now rewrite IH | exact IH].
Qed.

Lemma filter_not_nil_all (es : list error) :
  Forall (fun e => e <> None) es -> filter errors.not_nil es = es.
Proof.
  induction 1 as [| [v |] es He _ IH]; cbn; [reflexivity | now rewrite IH | now destruct He].
Qed.

(** X6: after any sequence of appends to a fresh aggregator, [Unwrap] returns
    what [errors.Join] returns for the appended errors: nil when all of them
    were nil, else the error wrapping the non-nil ones in the order of the
    appends. *)
Theorem Unwrap_is_Join_of_appends (es : list error) :
  Unwrap (Append_all es zero_MultiError) = errors.Join es
  /\ (forall j : errors.joinError,
        Unwrap (Append_all es zero_MultiError) = Some j ->
        errors.wrapped j = filter non_nil es)
  /\ (Unwrap (Append_all es zero_MultiError) = None <-> Forall (fun e => e = None) es).
Proof.
  assert (E : Unwrap (Append_all es zero_MultiError) = errors.Join es).
  { unfold Unwrap. rewrite Append_all_errs. cbn [errs zero_MultiError List.app].
    change non_nil with errors.not_nil. unfold errors.Join.
    rewrite filter_not_nil_idem.
    now destruct (List.length (filter errors.not_nil es) =? 0)%nat. }
  split; [exact E | rewrite E; unfold errors.Join; split].
  - intros j H. change non_nil with errors.not_nil.
    destruct (filter errors.not_nil es); [discriminate |].
    now injection H as <-.
  - clear E. induction es as [| [v |] es IH]; cbn.
    + split; [constructor | reflexivity].
    + split; [discriminate |]. intros H. inversion H. discriminate.
    + rewrite IH. split; [now constructor |]. intros H. now inversion H.
Qed.

(** X7: on an aggregator whose recorded errors are all non-nil, which is what
    [Append] keeps, [Unwrap] is nil exactly when [NilOrError] is nil, and a
    non-nil result wraps exactly the recorded errors, in their order. *)
Theorem Unwrap_agrees_with_NilOrError (m : MultiError) :
  Forall (fun e => e <> None) (errs m) ->
  (Unwrap m = None <-> NilOrError m = None)
  /\ (forall j : errors.joinError,
        Unwrap m = Some j -> errors.wrapped j = recorded (NilOrError m)).
Proof.
  destruct m as [es]. cbn [errs]. intros Hall.
  unfold Unwrap, NilOrError, as_error, errors.Join. cbn [errs].
  rewrite (filter_not_nil_all _ Hall).
  destruct es as [| e es]; cbn.
  - split; [tauto | discriminate].
  - split; [split; discriminate |]. intros j H. now injection H as <-.
Qed.

Lemma Unwrap_agrees_with_NilOrError_witness :
  (Unwrap {| errs := nested_errs |} = None <-> NilOrError {| errs := nested_errs |} = None)
  /\ (forall j : errors.joinError,
        Unwrap {| errs := nested_errs |} = Some j ->
        errors.wrapped j = recorded (NilOrError {| errs := nested_errs |})).
Proof.
  apply (Unwrap_agrees_with_NilOrError {| errs := nested_errs |}).
  repeat constructor; discriminate.
Defined.

(** * The rest of the validators *)

(** ** What a nil result guarantees *)

Lemma violations_nil_iff (cs : list check) :
  violations cs = [] <-> Forall (fun c => fst c = false) cs.
Proof.
  split; [| apply violations_none].
  induction cs as [| [b s] cs IH]; [constructor |].
  rewrite violations_cons. intros H. apply app_eq_nil in H. destruct H as [Hb Hcs].
  constructor; [| now apply IH].
  cbn [fst]. destruct b; [discriminate Hb | reflexivity].
Qed.

Lemma NilOrError_strings_nil (vs : list string) :
  NilOrError {| errs := map errors.New vs |} = None <-> vs = [].
Proof.
  apply (reported vs).
Qed.

Lemma SFcompare_none (a b : spec_float) :
  SFcompare a b = None -> a = S754_nan \/ b = S754_nan.
Proof.
  destruct a, b; cbn; try discriminate; auto.
Qed.

Lemma SFcompare_refl (a : spec_float) : a <> S754_nan -> SFcompare a a = Some Eq.
Proof.
  destruct a as [s | s | | s m e]; cbn; intros H; try reflexivity.
  - now destruct s.
  - now destruct H.
  - rewrite Z.compare_refl. change PosDef.Pos.compare_cont with Pos.compare_cont.
    rewrite Pos.compare_cont_refl. now destruct s.
Qed.

Lemma SFltb_negb_SFleb (a b : spec_float) :
  a <> S754_nan -> b <> S754_nan -> SFltb b a = negb (SFleb a b).
Proof.
  intros Ha Hb. unfold SFltb, SFleb.
  destruct (SFcompare a b) as [c |] eqn:E.
  - rewrite (SFcompare_antisym _ _ _ E). now destruct c.
  - destruct (SFcompare_none _ _ E); contradiction.
Qed.

(** The range test is false exactly on the unit interval and on NaN. *)
Lemma outside_unit_interval_false (x : float) :
  outside_unit_interval x = false <-> ratio_admitted x.
Proof.
  unfold outside_unit_interval, ratio_admitted, in_unit_interval, is_nan.
  rewrite !ltb_spec, !leb_spec, eqb_spec.
  destruct (Prim2SF x) as [s | s | | s m e] eqn:Ex.
  1, 2, 4:
    rewrite <- Ex;
    assert (Hx : Prim2SF x <> S754_nan) by (rewrite Ex; discriminate);
    rewrite (SFltb_negb_SFleb (Prim2SF 0) (Prim2SF x)) by (assumption || discriminate);
    rewrite (SFltb_negb_SFleb (Prim2SF x) (Prim2SF 1)) by (assumption || discriminate);
    unfold SFeqb; rewrite (SFcompare_refl _ Hx); cbn [negb];
    destruct (SFleb (Prim2SF 0) (Prim2SF x)), (SFleb (Prim2SF x) (Prim2SF 1));
    cbn; intuition discriminate.
  cbn. intuition.
Qed.

Lemma point_checks_none_iff (i : nat) (p : Point) :
  Forall (fun c => fst c = false) (point_checks i p) <-> point_admitted p.
Proof.
  unfold point_checks, point_admitted. rewrite <- !outside_unit_interval_false.
  rewrite <- !Z.ltb_ge. split.
  - intros H. repeat (apply Forall_cons_iff in H; destruct H as [? H]). cbn [fst] in *.
    repeat split; assumption.
  - intros (H1 & H2 & H3 & H4 & H5 & H6). repeat constructor; assumption.
Qed.

Lemma points_checks_none_iff (ps : list Point) :
  forall i : nat,
    Forall (fun c => fst c = false) (points_checks i ps) <-> Forall point_admitted ps.
Proof.
  induction ps as [| p ps IH]; intros i; cbn [points_checks].
  - split; constructor.
  - rewrite Forall_app, point_checks_none_iff, IH, Forall_cons_iff. reflexivity.
Qed.

(** X8: [ValidateProvenanceTag] returns nil exactly for the tags that meet
    every invariant: a nil result guarantees that each enumeration field is
    one of its constants, that the dedup hash matches and that the origin hint
    is empty or matches. *)
Theorem ValidateProvenanceTag_nil_iff (K : Constants) (l : loc) (h : heap ProvenanceTag) :
  ValidateProvenanceTag (addr l) h = Returns (None, h) <-> tag_ok (h l).
Proof.
  rewrite ValidateProvenanceTag_run. split.
  - intros H. injection H as H. apply NilOrError_strings_nil, violations_nil_iff in H.
    unfold tag_checks in H.
    repeat (apply Forall_cons_iff in H; destruct H as [? H]). cbn [fst] in *.
    repeat match goal with
           | H : negb _ = false |- _ => apply negb_false_iff in H
           end.
    unfold tag_ok. repeat split; try (apply one_of_In; assumption); try assumption.
    match goal with
    | H : origin_hint_ok _ = true |- _ =>
        unfold origin_hint_ok in H; apply orb_true_iff in H; destruct H as [H | H]
    end.
    + left. now apply String.eqb_eq.
    + now right.
  - intros H. now rewrite (tag_ok_no_violation _ H).
Qed.

(** X9: [ValidateSeries] returns nil exactly for the series with a
    non-empty topic, a set timestamp, the interval "minute", at least one
    point and, in every point, counts that are not negative and ratios that
    lie in the unit interval or are NaN. *)
Theorem ValidateSeries_nil_iff (l : loc) (h : heap Series) :
  ValidateSeries (addr l) h = Returns (None, h) <-> series_admitted (h l).
Proof.
  rewrite ValidateSeries_run.
  assert (E : violations (series_checks (h l)) = [] <-> series_admitted (h l)).
  { rewrite violations_nil_iff. unfold series_checks, series_admitted.
    rewrite Forall_app, points_checks_none_iff. unfold entity_checks.
    split.
    - intros [H Hps].
      repeat (apply Forall_cons_iff in H; destruct H as [? H]). cbn [fst] in *.
      repeat split; try assumption.
      + now apply String.eqb_neq.
      + apply String.eqb_eq. now apply negb_false_iff.
      + intros Hp. rewrite Hp in *. discriminate.
    - intros (Ht & Hg & Hi & Hp & Hps). split; [| exact Hps].
      repeat constructor; cbn [fst]; try assumption.
      + now apply String.eqb_neq.
      + rewrite Hi. reflexivity.
      + now destruct (Points (h l)). }
  rewrite <- E. split.
  - intros H. injection H as H. now apply NilOrError_strings_nil.
  - intros H. now rewrite H.
Qed.

(** ** Each failure on its own *)

Lemma recorded_strings (vs : list string) (s : string) :
  In (errors.New s) (recorded (NilOrError {| errs := map errors.New vs |})) <-> In s vs.
Proof.
  destruct (reported vs) as (_ & -> & _). apply In_New.
Qed.

Ltac this_check H := apply (f_equal fst) in H; cbn [fst] in H.

Lemma tag_checks_each {K : Constants} (t : ProvenanceTag) :
  (In "invalid acct_age_bucket"%string (violations (tag_checks t))
   <-> ~ In (AcctAgeBucket t) acct_age_buckets)
  /\ (In "invalid acct_type"%string (violations (tag_checks t))
      <-> ~ In (AcctType t) acct_types)
  /\ (In "invalid automation_flag"%string (violations (tag_checks t))
      <-> ~ In (AutomationFlag t) automation_flags)
  /\ (In "invalid post_kind"%string (violations (tag_checks t))
      <-> ~ In (PostKind t) post_kinds)
  /\ (In "invalid client_family"%string (violations (tag_checks t))
      <-> ~ In (ClientFamily t) client_families)
  /\ (In "invalid media_provenance"%string (violations (tag_checks t))
      <-> ~ In (MediaProvenance t) media_provenances)
  /\ (In "dedup_hash must be 8 lowercase hex chars"%string (violations (tag_checks t))
      <-> regexp.MatchString ReHex8 (DedupHash t) = false)
  /\ (In "origin_hint/country must match ISO-3166 pattern (e.g., US or US-CA)"%string
         (violations (tag_checks t))
      <-> OriginHint t <> EmptyString
          /\ regexp.MatchString ReISO3166 (OriginHint t) = false).
Proof.
  rewrite !In_violations. unfold tag_checks. cbn [In].
  assert (Hone : forall x names, negb (one_of x names) = true <-> ~ In x names).
  { intros x names. rewrite negb_true_iff, <- not_true_iff_false, one_of_In. reflexivity. }
  assert (Hhint : negb (origin_hint_ok (OriginHint t)) = true
                  <-> OriginHint t <> EmptyString
                      /\ regexp.MatchString ReISO3166 (OriginHint t) = false).
  { unfold origin_hint_ok.
    rewrite negb_true_iff, orb_false_iff, String.eqb_neq. reflexivity. }
  rewrite <- !Hone, <- Hhint, <- (negb_true_iff (regexp.MatchString ReHex8 (DedupHash t))).
  repeat split;
    try (intros H; rewrite H; tauto);
    intros [H | [H | [H | [H | [H | [H | [H | [H | []]]]]]]]];
    first [ discriminate H | this_check H; exact H ].
Qed.

(** X10: every check of a provenance tag is reported on its own: each of the
    eight failures is recorded exactly when its own field is invalid, whatever
    the other fields hold; the origin-hint failure needs a non-empty hint. *)
Theorem tag_failures_independent (K : Constants) (l : loc) (h : heap ProvenanceTag) :
  exists e : error,
    ValidateProvenanceTag (addr l) h = Returns (e, h)
    /\ (In (errors.New "invalid acct_age_bucket") (recorded e)
        <-> ~ In (AcctAgeBucket (h l)) acct_age_buckets)
    /\ (In (errors.New "invalid acct_type") (recorded e)
        <-> ~ In (AcctType (h l)) acct_types)
    /\ (In (errors.New "invalid automation_flag") (recorded e)
        <-> ~ In (AutomationFlag (h l)) automation_flags)
    /\ (In (errors.New "invalid post_kind") (recorded e)
        <-> ~ In (PostKind (h l)) post_kinds)
    /\ (In (errors.New "invalid client_family") (recorded e)
        <-> ~ In (ClientFamily (h l)) client_families)
    /\ (In (errors.New "invalid media_provenance") (recorded e)
        <-> ~ In (MediaProvenance (h l)) media_provenances)
    /\ (In (errors.New "dedup_hash must be 8 lowercase hex chars") (recorded e)
        <-> regexp.MatchString ReHex8 (DedupHash (h l)) = false)
    /\ (In (errors.New "origin_hint/country must match ISO-3166 pattern (e.g., US or US-CA)")
           (recorded e)
        <-> OriginHint (h l) <> EmptyString
            /\ regexp.MatchString ReISO3166 (OriginHint (h l)) = false).
Proof.
  eexists. split; [apply ValidateProvenanceTag_run |].
  rewrite !recorded_strings. apply tag_checks_each.
Qed.

Lemma In_series_entity (s : Series) (msg : string) :
  (forall i rest, msg <> point_msg i rest) ->
  In (true, msg) (series_checks s) <-> In (true, msg) (entity_checks s).
Proof.
  intros Hmsg. unfold series_checks. rewrite in_app_iff. split; [| now left].
  intros [H | H]; [exact H |].
  apply In_points_checks in H. destruct H as (j & q & _ & H).
  destruct (point_checks_msg _ _ _ H) as [rest E]. cbn [snd] in E.
  now destruct (Hmsg _ _ E).
Qed.

Lemma entity_checks_each (s : Series) :
  (In "topic must be non-empty"%string (violations (series_checks s))
   <-> Topic s = EmptyString)
  /\ (In "generated_at must be set"%string (violations (series_checks s))
      <-> time.IsZero (GeneratedAt s) = true)
  /\ (In ("interval must be " ++ dquote ++ "minute" ++ dquote)%string
         (violations (series_checks s))
      <-> Interval s <> "minute"%string)
  /\ (In "series must contain at least one point"%string (violations (series_checks s))
      <-> Points s = []).
Proof.
  rewrite !In_violations.
  rewrite !(In_series_entity s) by (intros i rest; discriminate).
  unfold entity_checks. cbn [In].
  rewrite <- (String.eqb_eq (Topic s)), <- (String.eqb_neq (Interval s)), <- negb_true_iff.
  assert (Hp : Points s = [] <-> match Points s with [] => true | _ :: _ => false end = true).
  { destruct (Points s); split; congruence. }
  rewrite Hp.
  repeat split;
    try (intros H; rewrite H; tauto);
    intros [H | [H | [H | [H | []]]]];
    first [ discriminate H | this_check H; exact H ].
Qed.

(** X11: each of the four failures of the series itself is recorded exactly
    when its own condition holds, whatever the points are: an empty topic, a
    zero timestamp, an interval other than "minute", no point. *)
Theorem entity_failures_independent (l : loc) (h : heap Series) :
  exists e : error,
    ValidateSeries (addr l) h = Returns (e, h)
    /\ (In (errors.New "topic must be non-empty") (recorded e)
        <-> Topic (h l) = EmptyString)
    /\ (In (errors.New "generated_at must be set") (recorded e)
        <-> time.IsZero (GeneratedAt (h l)) = true)
    /\ (In (errors.New ("interval must be " ++ dquote ++ "minute" ++ dquote)) (recorded e)
        <-> Interval (h l) <> "minute"%string)
    /\ (In (errors.New "series must contain at least one point") (recorded e)
        <-> Points (h l) = []).
Proof.
  eexists. split; [apply ValidateSeries_run |].
  rewrite !recorded_strings. apply entity_checks_each.
Qed.

Lemma In_point_checks_counts (i : nat) (p : Point) :
  (In (true, volume_msg i) (point_checks i p) <-> (Volume p < 0)%Z)
  /\ (In (true, duplication_clusters_msg i) (point_checks i p)
      <-> (DuplicationClusters (CoordinationSignals p) < 0)%Z).
Proof.
  rewrite <- !Z.ltb_lt.
  unfold point_checks, volume_msg, reshare_ratio_msg, recycled_content_rate_msg,
    burst_score_msg, synchrony_index_msg, duplication_clusters_msg.
  cbn [In].
  repeat split;
    try (intros H; rewrite H; tauto);
    intros [H | [H | [H | [H | [H | [H | []]]]]]];
    first [ other_field H | this_check H; exact H ].
Qed.

(** X12: for the point at any index of a series, the volume failure and the
    duplication-clusters failure that carry this index are recorded exactly
    when the count is negative; a count of 0 raises none. *)
Theorem counts_checked_at_zero (l : loc) (h : heap Series) (i : nat) (p : Point) :
  nth_error (Points (h l)) i = Some p ->
  exists e : error,
    ValidateSeries (addr l) h = Returns (e, h)
    /\ (In (errors.New (volume_msg i)) (recorded e) <-> (Volume p < 0)%Z)
    /\ (In (errors.New (duplication_clusters_msg i)) (recorded e)
        <-> (DuplicationClusters (CoordinationSignals p) < 0)%Z).
Proof.
  intros Hi. eexists. split; [apply ValidateSeries_run |].
  rewrite !recorded_strings.
  destruct (In_point_checks_counts i p) as [H1 H2].
  rewrite <- H1, <- H2. split.
  - apply (In_series_point (h l) i p _ Hi).
  - apply (In_series_point (h l) i p _ Hi).
Qed.

Lemma counts_checked_at_zero_witness :
  exists e : error,
    ValidateSeries (addr 0) (heap_of hourly_series) = Returns (e, heap_of hourly_series)
    /\ (In (errors.New (volume_msg 0)) (recorded e) <-> (Volume negative_volume_point < 0)%Z)
    /\ (In (errors.New (duplication_clusters_msg 0)) (recorded e)
        <-> (DuplicationClusters (CoordinationSignals negative_volume_point) < 0)%Z).
Proof.
  apply (counts_checked_at_zero 0 (heap_of hourly_series) 0 negative_volume_point).
  reflexivity.
Defined.

(** ** The list of failures as a whole *)

Lemma violations_length (cs : list check) :
  List.length (violations cs) <= List.length cs.
Proof.
  induction cs as [| [b s] cs IH]; [apply Nat.le_refl |].
  rewrite violations_cons, length_app. cbn [List.length].
  destruct b; cbn; lia.
Qed.

Lemma points_checks_length (ps : list Point) :
  forall i : nat, List.length (points_checks i ps) = 6 * List.length ps.
Proof.
  induction ps as [| p ps IH]; intros i; cbn [points_checks List.length]; [reflexivity |].
  rewrite length_app, IH. cbn [point_checks List.length]. lia.
Qed.

Lemma recorded_length (vs : list string) :
  List.length (recorded (NilOrError {| errs := map errors.New vs |})) = List.length vs.
Proof.
  destruct (reported vs) as (_ & -> & _). apply length_map.
Qed.

(** X13: a provenance tag is reported with at most eight failures, and a
    series with at most four failures and six more for each of its points. *)
Theorem failure_count_bounded (K : Constants) :
  (forall (l : loc) (h : heap ProvenanceTag),
      exists e : error,
        ValidateProvenanceTag (addr l) h = Returns (e, h)
        /\ List.length (recorded e) <= 8)
  /\ (forall (l : loc) (h : heap Series),
        exists e : error,
          ValidateSeries (addr l) h = Returns (e, h)
          /\ List.length (recorded e) <= 4 + 6 * List.length (Points (h l))).
Proof.
  split; intros l h; eexists.
  - split; [apply ValidateProvenanceTag_run |]. rewrite recorded_length.
    apply (violations_length (tag_checks (h l))).
  - split; [apply ValidateSeries_run |]. rewrite recorded_length.
    etransitivity; [apply violations_length |].
    unfold series_checks. rewrite length_app, points_checks_length. cbn. lia.
Qed.

Lemma violations_sub (cs : list check) (s : string) :
  In s (violations cs) -> In s (map snd cs).
Proof.
  rewrite In_violations. intros H. apply in_map_iff. now exists (true, s).
Qed.

Lemma violations_NoDup (cs : list check) :
  NoDup (map snd cs) -> NoDup (violations cs).
Proof.
  induction cs as [| [b s] cs IH]; cbn [map snd]; intros H; [constructor |].
  inversion H as [| ? ? Hs Hcs]; subst.
  rewrite violations_cons. destruct b; cbn.
  - constructor; [| now apply IH]. intros Hin. now apply Hs, violations_sub.
  - now apply IH.
Qed.

Lemma NoDup_app_disjoint {A : Type} (xs ys : list A) :
  NoDup xs -> NoDup ys -> (forall x, In x xs -> ~ In x ys) -> NoDup (xs ++ ys).
Proof.
  induction 1 as [| x xs Hx _ IH]; intros Hys Hd; [exact Hys |].
  cbn. constructor.
  - rewrite in_app_iff. intros [H | H]; [now apply Hx |].
    apply (Hd x); [now left | exact H].
  - apply IH; [exact Hys |]. intros y Hy. apply Hd. now right.
Qed.

Lemma point_checks_NoDup (i : nat) (p : Point) : NoDup (map snd (point_checks i p)).
Proof.
  unfold point_checks, volume_msg, reshare_ratio_msg, recycled_content_rate_msg,
    burst_score_msg, synchrony_index_msg, duplication_clusters_msg.
  cbn [map snd].
  repeat constructor; cbn [In];
    intros H; repeat (destruct H as [H | H];
                      [apply point_msg_inj in H; destruct H as [_ H]; discriminate H |]);
    exact H.
Qed.

Lemma In_points_checks_index (s : string) (ps : list Point) (k : nat) :
  In s (map snd (points_checks k ps)) ->
  exists j rest, s = point_msg (k + j) (String "]" rest).
Proof.
  intros H. apply in_map_iff in H. destruct H as (c & <- & Hc).
  apply In_points_checks in Hc. destruct Hc as (j & q & _ & Hc).
  destruct (point_checks_msg _ _ _ Hc) as [rest E]. now exists j, rest.
Qed.

Lemma points_checks_NoDup (ps : list Point) :
  forall k : nat, NoDup (map snd (points_checks k ps)).
Proof.
  induction ps as [| p ps IH]; intros k; cbn [points_checks map]; [constructor |].
  rewrite map_app. apply NoDup_app_disjoint; [apply point_checks_NoDup | apply IH |].
  intros s Hs Hlater.
  apply in_map_iff in Hs. destruct Hs as (c & <- & Hc).
  destruct (point_checks_msg _ _ _ Hc) as [rest E].
  apply In_points_checks_index in Hlater. destruct Hlater as (j & rest' & E').
  rewrite E in E'. apply point_msg_inj in E'. lia.
Qed.

Lemma series_checks_NoDup (s : Series) : NoDup (map snd (series_checks s)).
Proof.
  unfold series_checks. rewrite map_app.
  apply NoDup_app_disjoint; [| apply points_checks_NoDup |].
  - unfold entity_checks. cbn [map snd].
    repeat constructor; cbn [In];
      intros H; repeat (destruct H as [H | H]; [discriminate H |]); exact H.
  - intros msg Hent Hpts.
    apply In_points_checks_index in Hpts. destruct Hpts as (j & rest & ->).
    unfold entity_checks in Hent. cbn [map snd In] in Hent.
    repeat (destruct Hent as [Hent | Hent]; [discriminate Hent |]). exact Hent.
Qed.

Lemma tag_checks_NoDup {K : Constants} (t : ProvenanceTag) : NoDup (map snd (tag_checks t)).
Proof.
  unfold tag_checks. cbn [map snd].
  repeat constructor; cbn [In];
    intros H; repeat (destruct H as [H | H]; [discriminate H |]); exact H.
Qed.

Lemma recorded_NoDup (vs : list string) :
  NoDup vs -> NoDup (recorded (NilOrError {| errs := map errors.New vs |})).
Proof.
  destruct (reported vs) as (_ & -> & _).
  induction 1 as [| s vs Hs _ IH]; cbn [map]; constructor; [| exact IH].
  now rewrite In_New.
Qed.

(** X14: no failure is reported twice: the failures a validator records are
    pairwise different, because the descriptions of different checks differ
    and the description of a check of a point carries the index of the
    point. *)
Theorem failures_reported_once (K : Constants) :
  (forall (l : loc) (h : heap ProvenanceTag),
      exists e : error,
        ValidateProvenanceTag (addr l) h = Returns (e, h) /\ NoDup (recorded e))
  /\ (forall (l : loc) (h : heap Series),
        exists e : error,
          ValidateSeries (addr l) h = Returns (e, h) /\ NoDup (recorded e)).
Proof.
  split; intros l h; eexists.
  - split; [apply ValidateProvenanceTag_run |].
    apply recorded_NoDup, violations_NoDup, tag_checks_NoDup.
  - split; [apply ValidateSeries_run |].
    apply recorded_NoDup, violations_NoDup, series_checks_NoDup.
Qed.

(** ** Two failures of a series *)

(** X1: a series with a valid topic and timestamp, an interval other than
    "minute" and one point whose volume is negative and whose other fields
    pass, is reported with the interval failure followed by the volume failure
    of the point at index 0. *)
Theorem bad_interval_and_volume (l : loc) (h : heap Series) (p : Point) :
  Topic (h l) <> EmptyString ->
  time.IsZero (GeneratedAt (h l)) = false ->
  Interval (h l) <> "minute"%string ->
  Points (h l) = [p] ->
  (Volume p < 0)%Z ->
  ratio_admitted (ReshareRatio p) ->
  ratio_admitted (RecycledContentRate p) ->
  ratio_admitted (BurstScore (CoordinationSignals p)) ->
  ratio_admitted (SynchronyIndex (CoordinationSignals p)) ->
  (0 <= DuplicationClusters (CoordinationSignals p))%Z ->
  exists v : error_value,
    ValidateSeries (addr l) h = Returns (Some v, h)
    /\ Error_value v
       = Returns ("interval must be " ++ dquote ++ "minute" ++ dquote
                  ++ "; points[0].volume must be ≥0")%string.
Proof.
  intros Ht Hg Hi Hp Hv H1 H2 H3 H4 H5.
  rewrite ValidateSeries_run.
  assert (E : violations (series_checks (h l))
              = [("interval must be " ++ dquote ++ "minute" ++ dquote)%string;
                 volume_msg 0]).
  { unfold series_checks, entity_checks. rewrite Hp, Hg.
    apply String.eqb_neq in Ht, Hi. rewrite Ht. fold IntervalMinute. unfold IntervalMinute.
    rewrite Hi. cbn [points_checks]. unfold point_checks.
    apply Z.ltb_lt in Hv. apply Z.ltb_ge in H5.
    apply outside_unit_interval_false in H1, H2, H3, H4.
    rewrite Hv, H1, H2, H3, H4, H5. reflexivity. }
  rewrite E. eexists. split; reflexivity.
Qed.

Lemma bad_interval_and_volume_witness :
  exists v : error_value,
    ValidateSeries (addr 0) (heap_of hourly_series) = Returns (Some v, heap_of hourly_series)
    /\ Error_value v
       = Returns ("interval must be " ++ dquote ++ "minute" ++ dquote
                  ++ "; points[0].volume must be ≥0")%string.
Proof.
  apply (bad_interval_and_volume 0 (heap_of hourly_series) negative_volume_point);
    try reflexivity; try discriminate; try (left; reflexivity).
Defined.

(** ** The message and the error *)

Lemma violations_nonempty_strings (cs : list check) :
  Forall (fun c => snd c <> EmptyString) cs ->
  Forall (fun s => s <> EmptyString) (violations cs).
Proof.
  apply (violations_Forall (fun s => s <> EmptyString)).
Qed.

Lemma concat_empty_iff (vs : list string) :
  Forall (fun s => s <> EmptyString) vs ->
  String.concat "; " vs = EmptyString <-> vs = [].
Proof.
  intros H. split; [| now intros ->].
  destruct H as [| s vs Hs _]; [reflexivity |].
  rewrite concat_separated. destruct s; [now destruct Hs | discriminate].
Qed.

Lemma points_checks_nonempty (ps : list Point) :
  forall i : nat, Forall (fun c => snd c <> EmptyString) (points_checks i ps).
Proof.
  induction ps as [| p ps IH]; intros i; cbn [points_checks]; [constructor |].
  apply Forall_app. split; [| apply IH].
  unfold point_checks. repeat constructor; discriminate.
Qed.

(** X15: the message of the error a validator returns is empty exactly when
    the error is nil: a non-nil error always says something. *)
Theorem message_empty_iff_nil (K : Constants) :
  (forall (l : loc) (h : heap ProvenanceTag),
      exists (e : error) (msg : string),
        ValidateProvenanceTag (addr l) h = Returns (e, h)
        /\ message e = Returns msg
        /\ (msg = EmptyString <-> e = None))
  /\ (forall (l : loc) (h : heap Series),
        exists (e : error) (msg : string),
          ValidateSeries (addr l) h = Returns (e, h)
          /\ message e = Returns msg
          /\ (msg = EmptyString <-> e = None)).
Proof.
  split; intros l h; eexists; eexists.
  - split; [apply ValidateProvenanceTag_run |].
    destruct (reported (violations (tag_checks (h l)))) as (Hnil & _ & Hmsg).
    split; [exact Hmsg |]. rewrite Hnil. apply concat_empty_iff.
    apply violations_nonempty_strings. unfold tag_checks. repeat constructor; discriminate.
  - split; [apply ValidateSeries_run |].
    destruct (reported (violations (series_checks (h l)))) as (Hnil & _ & Hmsg).
    split; [exact Hmsg |]. rewrite Hnil. apply concat_empty_iff.
    apply violations_nonempty_strings. unfold series_checks. apply Forall_app. split.
    + unfold entity_checks. repeat constructor; discriminate.
    + apply points_checks_nonempty.
Qed.

(** X16: on a non-nil record a [Must] wrapper either returns, when no check
    is violated, or panics with an error whose message lists every violated
    check, joined by "; " in the order of the checks. *)
Theorem Must_panics_with_every_failure (K : Constants) :
  (forall (l : loc) (h : heap ProvenanceTag),
      (violations (tag_checks (h l)) = []
       /\ MustProvenanceTag (addr l) h = Returns (tt, h))
      \/ (exists v : error_value,
            MustProvenanceTag (addr l) h = Panics (panicValue v)
            /\ Error_value v = Returns (String.concat "; " (violations (tag_checks (h l))))
            /\ recorded (Some v) = map errors.New (violations (tag_checks (h l)))))
  /\ (forall (l : loc) (h : heap Series),
        (violations (series_checks (h l)) = []
         /\ MustSeries (addr l) h = Returns (tt, h))
        \/ (exists v : error_value,
              MustSeries (addr l) h = Panics (panicValue v)
              /\ Error_value v
                 = Returns (String.concat "; " (violations (series_checks (h l))))
              /\ recorded (Some v) = map errors.New (violations (series_checks (h l))))).
Proof.
  split; intros l h.
  - unfold MustProvenanceTag. rewrite ValidateProvenanceTag_run, NilOrError_strings.
    destruct (violations (tag_checks (h l))) as [| s ss]; [left; now split | right].
    eexists. split; [reflexivity |]. split; [apply Error_value_strings | reflexivity].
  - unfold MustSeries. rewrite ValidateSeries_run, NilOrError_strings.
    destruct (violations (series_checks (h l))) as [| s ss]; [left; now split | right].
    eexists. split; [reflexivity |]. split; [apply Error_value_strings | reflexivity].
Qed.

(** ** More points *)

Lemma points_checks_app (ps qs : list Point) :
  forall i : nat,
    points_checks i (ps ++ qs)
    = points_checks i ps ++ points_checks (i + List.length ps) qs.
Proof.
  induction ps as [| p ps IH]; intros i; cbn [List.app points_checks List.length].
  - now rewrite Nat.add_0_r.
  - rewrite IH, Nat.add_succ_r, <- app_assoc. reflexivity.
Qed.

(** X17: when two series agree on topic, timestamp and interval and the
    second holds the points of the first, of which there is at least one,
    followed by further points, the failures of the second are those of the
    first followed by the failures of the further points, which carry the
    indices after those of the first. *)
Theorem further_points_add_failures (l l' : loc) (h : heap Series) (qs : list Point) :
  Topic (h l') = Topic (h l) ->
  GeneratedAt (h l') = GeneratedAt (h l) ->
  Interval (h l') = Interval (h l) ->
  Points (h l') = Points (h l) ++ qs ->
  Points (h l) <> [] ->
  exists e e' : error,
    ValidateSeries (addr l) h = Returns (e, h)
    /\ ValidateSeries (addr l') h = Returns (e', h)
    /\ recorded e'
       = recorded e
         ++ map errors.New (violations (points_checks (List.length (Points (h l))) qs)).
Proof.
  intros Ht Hg Hi Hp Hne. rewrite !ValidateSeries_run. do 2 eexists.
  split; [reflexivity | split; [reflexivity |]].
  destruct (reported (violations (series_checks (h l)))) as (_ & -> & _).
  destruct (reported (violations (series_checks (h l')))) as (_ & -> & _).
  rewrite <- map_app. f_equal.
  unfold series_checks, entity_checks. rewrite Ht, Hg, Hi, Hp, points_checks_app.
  rewrite !violations_app, <- app_assoc. cbn [Nat.add]. f_equal.
  destruct (Points (h l)) as [| p ps]; [now destruct Hne | reflexivity].
Qed.

Lemma further_points_add_failures_witness :
  exists e e' : error,
    ValidateSeries (addr 0) (heap_pair sample_series longer_series)
    = Returns (e, heap_pair sample_series longer_series)
    /\ ValidateSeries (addr 1) (heap_pair sample_series longer_series)
       = Returns (e', heap_pair sample_series longer_series)
    /\ recorded e'
       = recorded e
         ++ map errors.New
              (violations
                 (points_checks
                    (List.length (Points (heap_pair sample_series longer_series 0)))
                    [negative_volume_point; nan_point])).
Proof.
  apply (further_points_add_failures 0 1 (heap_pair sample_series longer_series)
           [negative_volume_point; nan_point]);
    try reflexivity.
  discriminate.
Defined.

(** ** What the validators record *)

(** X18: every failure a validator records is a non-nil string error, never
    nil and never an aggregator, so the returned error keeps the invariant
    under which [Unwrap] and [NilOrError] agree and [Error] returns. *)
Theorem validators_record_string_errors (K : Constants) :
  (forall (l : loc) (h : heap ProvenanceTag),
      exists e : error,
        ValidateProvenanceTag (addr l) h = Returns (e, h)
        /\ Forall (fun x => exists s : string, x = errors.New s) (recorded e)
        /\ Forall (fun x => x <> None) (recorded e))
  /\ (forall (l : loc) (h : heap Series),
        exists e : error,
          ValidateSeries (addr l) h = Returns (e, h)
          /\ Forall (fun x => exists s : string, x = errors.New s) (recorded e)
          /\ Forall (fun x => x <> None) (recorded e)).
Proof.
  assert (H : forall vs : list string,
             Forall (fun x => exists s : string, x = errors.New s)
               (recorded (NilOrError {| errs := map errors.New vs |}))
             /\ Forall (fun x => x <> None)
                  (recorded (NilOrError {| errs := map errors.New vs |}))).
  { intros vs. destruct (reported vs) as (_ & -> & _).
    split; apply Forall_forall; intros x Hx; apply in_map_iff in Hx;
      destruct Hx as (s & <- & _); [now exists s | discriminate]. }
  split; intros l h; eexists.
  - split; [apply ValidateProvenanceTag_run | apply H].
  - split; [apply ValidateSeries_run | apply H].
Qed.

(** ** Locating the point of a failure *)

(** X19: the description of a failure of a point determines the point and
    the field: two of the six descriptions are the same text only for the
    same index and the same check. *)
Theorem point_failure_locates_point (f g : nat -> string) (i j : nat) :
  In f point_msgs -> In g point_msgs -> f i = g j -> i = j /\ f = g.
Proof.
  unfold point_msgs. cbn [In]. intros Hf Hg.
  repeat (destruct Hf as [<- | Hf]);
    try (now destruct Hf);
    repeat (destruct Hg as [<- | Hg]);
    try (now destruct Hg);
    unfold volume_msg, reshare_ratio_msg, recycled_content_rate_msg,
      burst_score_msg, synchrony_index_msg, duplication_clusters_msg;
    intros E; apply point_msg_inj in E; destruct E as [E1 E2];
    first [ discriminate E2 | split; [exact E1 | reflexivity] ].
Qed.

Lemma point_failure_locates_point_witness :
  12 = 12 /\ burst_score_msg = burst_score_msg.
Proof.
  apply (point_failure_locates_point burst_score_msg burst_score_msg 12 12);
    [cbn; tauto | cbn; tauto | reflexivity].
Defined.

(** * Ratios that are not numbers *)

(** C1: the series [nan_series] has a valid topic, timestamp and interval and
    one point whose reshare ratio is NaN. By the invariants it has one
    violation, the reshare ratio of the point at index 0, which does not lie
    in the unit interval; [ValidateSeries] returns nil for it, since neither
    [x < 0] nor [x > 1] holds of NaN. *)
Theorem nan_ratio_violation_unreported :
  violations (series_invariant_checks nan_series) = [reshare_ratio_msg 0]
  /\ in_unit_interval (ReshareRatio nan_point) = false
  /\ ValidateSeries (addr 0) (heap_of nan_series) = Returns (None, heap_of nan_series)
  /\ MustSeries (addr 0) (heap_of nan_series) = Returns (tt, heap_of nan_series).
Proof.
  repeat split.
Qed.

Lemma outside_is_not_inside (x : float) :
  is_nan x = false -> outside_unit_interval x = negb (in_unit_interval x).
Proof.
  intros Hnan. destruct (outside_unit_interval x) eqn:Eo.
  - destruct (in_unit_interval x) eqn:Ei; [| reflexivity].
    assert (H : ratio_admitted x) by now left.
    apply outside_unit_interval_false in H. congruence.
  - apply outside_unit_interval_false in Eo. destruct Eo as [-> | Hn]; [reflexivity |].
    congruence.
Qed.

Lemma points_invariant_checks_eq (ps : list Point) :
  Forall point_no_nan ps ->
  forall i : nat, points_invariant_checks i ps = points_checks i ps.
Proof.
  induction 1 as [| p ps (H1 & H2 & H3 & H4) _ IH]; intros i;
    cbn [points_invariant_checks points_checks]; [reflexivity |].
  rewrite IH. f_equal. unfold point_invariant_checks, point_checks.
  now rewrite !outside_is_not_inside.
Qed.

(** X21: for a series none of whose ratios is NaN, the violations by the
    invariants are the failures [ValidateSeries] records: the error is nil
    exactly when no invariant is violated, and otherwise records one failure
    per violated invariant in the order of the checks, with the descriptions
    joined by "; " as its message. *)
Theorem failures_are_violations_without_nan (l : loc) (h : heap Series) :
  Forall point_no_nan (Points (h l)) ->
  exists e : error,
    ValidateSeries (addr l) h = Returns (e, h)
    /\ (e = None <-> violations (series_invariant_checks (h l)) = [])
    /\ recorded e = map errors.New (violations (series_invariant_checks (h l)))
    /\ message e = Returns (String.concat "; " (violations (series_invariant_checks (h l)))).
Proof.
  intros Hnan. unfold series_invariant_checks.
  rewrite (points_invariant_checks_eq _ Hnan). fold (series_checks (h l)).
  eexists. split; [apply ValidateSeries_run |].
  apply (reported (violations (series_checks (h l)))).
Qed.

Lemma failures_are_violations_without_nan_witness :
  exists e : error,
    ValidateSeries (addr 0) (heap_of hourly_series) = Returns (e, heap_of hourly_series)
    /\ (e = None <-> violations (series_invariant_checks (heap_of hourly_series 0)) = [])
    /\ recorded e
       = map errors.New (violations (series_invariant_checks (heap_of hourly_series 0)))
    /\ message e
       = Returns (String.concat "; "
                    (violations (series_invariant_checks (heap_of hourly_series 0)))).
Proof.
  apply (failures_are_violations_without_nan 0 (heap_of hourly_series)).
  repeat constructor.
Defined.

(** * Equal records *)

Lemma validation_reads_record_only_witness :
  (exists (e : error) (msg : string),
      ValidateProvenanceTag (K := sample_constants) (addr 0)
        (heap_pair sample_tag (set_AcctType "robot" sample_tag))
      = Returns (e, heap_pair sample_tag (set_AcctType "robot" sample_tag))
      /\ ValidateProvenanceTag (K := sample_constants) (addr 3) (heap_of sample_tag)
         = Returns (e, heap_of sample_tag)
      /\ message e = Returns msg)
  /\ (exists (e : error) (msg : string),
        ValidateSeries (addr 1) (heap_pair sample_series longer_series)
        = Returns (e, heap_pair sample_series longer_series)
        /\ ValidateSeries (addr 7) (heap_of longer_series)
           = Returns (e, heap_of longer_series)
        /\ message e = Returns msg).
Proof.
  split.
  - apply (proj1 (validation_reads_record_only sample_constants) 0 3
             (heap_pair sample_tag (set_AcctType "robot" sample_tag)) (heap_of sample_tag)).
    reflexivity.
  - apply (proj2 (validation_reads_record_only sample_constants) 1 7
             (heap_pair sample_series longer_series) (heap_of longer_series)).
    reflexivity.
Defined.
